(** * BTB Gaussian-process tuners ([btb/tuning/gp.py])

    A shallow embedding of the four tuner classes [GP], [GPEi],
    [GPMatern52Ei] and [GPEiVelocity], with the properties of their
    acquisition and exploration policies.

    Number model.  The program computes on IEEE-754 doubles.  A double is
    embedded as a [num]: a finite value (a real number, arithmetic on finite
    values is exact: no rounding, no overflow) or one of the special values
    +inf, -inf and NaN, which follow the IEEE rules (x/0, 0*inf, inf-inf,
    NaN propagation, comparisons with NaN are false).  Zero is unsigned and
    stands for +0.

    The exact arithmetic is an idealisation: on doubles [norm.cdf] and
    [norm.pdf] reach 0 and 1 in the tails, quotients overflow and sums are
    rounded.  The properties stated on [num] are those of the control flow,
    of the special values and of the order of given numbers, or are marked
    as holding in exact arithmetic.  What rounding, overflow or underflow
    decides is stated on the kernel's binary64 numbers instead: the module
    [Binary64] holds the same computations on doubles, with scipy's two
    functions as parameters, and [Binary64Facts] their properties. *)

From Stdlib Require Import Reals Lra Lia List Bool Arith ZArith QArith.
From Stdlib Require Import Sorting.Permutation Sorting.Sorted.
From Stdlib Require PrimFloat Uint63 SpecFloat FloatOps FloatAxioms.
Import ListNotations.

Set Warnings "-inexact-float".

Local Open Scope R_scope.

(** ** Numbers *)

Inductive num : Type :=
| Fin (r : R)
| PInf
| NInf
| NaN.

Definition is_nan (a : num) : bool :=
  match a with NaN => true | _ => false end.

Definition finite (a : num) : Prop :=
  match a with Fin _ => True | _ => False end.

Definition signed_inf (positive : bool) : num :=
  if positive then PInf else NInf.

(** [inf_times s x]: the infinity of sign [s] multiplied by the finite [x]
    (also: the finite [x] divided by a zero of sign [s]). *)
Definition inf_times (positive : bool) (x : R) : num :=
  match total_order_T x 0 with
  | inleft (left _) => signed_inf (negb positive)
  | inleft (right _) => NaN
  | inright _ => signed_inf positive
  end.

(** [inf_over s y]: the infinity of sign [s] divided by the finite [y];
    y = 0 is +0 and keeps the sign. *)
Definition inf_over (positive : bool) (y : R) : num :=
  if Rlt_dec y 0 then signed_inf (negb positive) else signed_inf positive.

Definition nopp (a : num) : num :=
  match a with
  | Fin x => Fin (- x)
  | PInf => NInf
  | NInf => PInf
  | NaN => NaN
  end.

Definition nadd (a b : num) : num :=
  match a, b with
  | NaN, _ | _, NaN => NaN
  | Fin x, Fin y => Fin (x + y)
  | PInf, NInf | NInf, PInf => NaN
  | PInf, _ | _, PInf => PInf
  | NInf, _ | _, NInf => NInf
  end.

Definition nsub (a b : num) : num := nadd a (nopp b).

Definition nmul (a b : num) : num :=
  match a, b with
  | NaN, _ | _, NaN => NaN
  | Fin x, Fin y => Fin (x * y)
  | PInf, Fin y | Fin y, PInf => inf_times true y
  | NInf, Fin y | Fin y, NInf => inf_times false y
  | PInf, PInf | NInf, NInf => PInf
  | PInf, NInf | NInf, PInf => NInf
  end.

(** Division of numpy doubles: a division by zero does not raise, it gives
    an infinity, or NaN for 0/0. *)
Definition ndiv (a b : num) : num :=
  match a, b with
  | NaN, _ | _, NaN => NaN
  | Fin x, Fin y => if Req_dec_T y 0 then inf_times true x else Fin (x / y)
  | Fin _, (PInf | NInf) => Fin 0
  | PInf, Fin y => inf_over true y
  | NInf, Fin y => inf_over false y
  | (PInf | NInf), (PInf | NInf) => NaN
  end.

(** [a <= b] and [a < b] on doubles; false as soon as one side is NaN. *)
Definition nleb (a b : num) : bool :=
  match a, b with
  | NaN, _ | _, NaN => false
  | Fin x, Fin y => if Rle_dec x y then true else false
  | NInf, _ | _, PInf => true
  | _, _ => false
  end.

Definition nltb (a b : num) : bool :=
  match a, b with
  | NaN, _ | _, NaN => false
  | Fin x, Fin y => if Rlt_dec x y then true else false
  | PInf, _ | _, NInf => false
  | _, _ => true
  end.

Definition nle (a b : num) : Prop := nleb a b = true.
Definition nlt (a b : num) : Prop := nltb a b = true.

(** [np.exp]. *)
Definition np_exp (a : num) : num :=
  match a with
  | Fin x => Fin (exp x)
  | PInf => PInf
  | NInf => Fin 0
  | NaN => NaN
  end.

(** [np.mean] of a list of doubles: the sum divided by the count; the mean
    of the empty list is 0/0 = NaN (numpy only warns). *)
Definition np_sum (l : list num) : num := fold_left nadd l (Fin 0).

Definition np_mean (l : list num) : num :=
  ndiv (np_sum l) (Fin (INR (length l))).

(** [np.argmax] of a 1-d array: the first index of the maximum, a NaN
    counting as maximal; [mp] is the running maximum, [best] its index and
    [i] the index of the head of the rest. *)
Fixpoint argmax_loop (mp : num) (best i : nat) (l : list num) : nat :=
  match l with
  | [] => best
  | x :: tl =>
      if is_nan mp then best
      else if nleb x mp then argmax_loop mp best (S i) tl
      else argmax_loop x i (S i) tl
  end.

(** [np.max] of a 1-d array, NaN propagating. *)
Definition nmax (m x : num) : num :=
  if is_nan m then m else if nleb x m then m else x.

(** ** Python's [sorted] and slices *)

Fixpoint insert_sorted (x : num) (l : list num) : list num :=
  match l with
  | [] => [x]
  | h :: tl => if nltb x h then x :: l else h :: insert_sorted x tl
  end.

(** [sorted(y)]: a stable ascending sort by [<].  On a list without NaN
    every stable sort returns this list; with a NaN in it [<] is no order
    and what Python returns depends on its merge strategy. *)
Definition sorted (l : list num) : list num :=
  fold_left (fun acc x => insert_sorted x acc) l [].

(** [l[-n:]] for [n >= 0]: the last [n] elements, all of [l] when it has no
    more than [n]; and all of [l] for [n = 0], since [-0] is [0]. *)
Definition slice_last (n : nat) (l : list num) : list num :=
  if (n =? 0)%nat then l else skipn (length l - n) l.

(** ** Arrays, exceptions and the world *)

(** A 2-d array of doubles, as the list of its rows. *)
Definition matrix : Type := list (list num).

(** What [predict] returns: a numpy array of one or two dimensions; a 2-d
    array carries its number of columns ([shape[1]]), which rows alone do
    not give when there is none. *)
Inductive ndarray : Type :=
| Arr1 (v : list num)
| Arr2 (ncols : nat) (rows : matrix).

Definition ndim (a : ndarray) : nat :=
  match a with Arr1 _ => 1 | Arr2 _ _ => 2 end.

(** [a.shape[0]]. *)
Definition shape0 (a : ndarray) : nat :=
  match a with Arr1 v => length v | Arr2 _ rows => length rows end.

(** [predictions[:, j]]; a row shorter than the array is wide does not
    occur in a numpy array. *)
Definition column (j : nat) (rows : matrix) : list num :=
  map (fun r => nth j r NaN) rows.

Inductive exn : Type :=
| IndexError      (* too many indices, or an index out of bounds *)
| ValueError      (* argmax or max of an empty array, bad unpacking *)
| AttributeError. (* an attribute read before any method has set it *)

Inductive result (A : Type) : Type :=
| Ok (a : A)
| Raise (e : exn).
Arguments Ok {A} a.
Arguments Raise {A} e.

Definition np_argmax (l : list num) : result nat :=
  match l with
  | [] => Raise ValueError
  | x :: tl => Ok (argmax_loop x 0 1 tl)
  end.

Definition np_max (l : list num) : result num :=
  match l with
  | [] => Raise ValueError
  | x :: tl => Ok (fold_left nmax tl x)
  end.

(** What a call leaves behind, besides its result. *)
Inductive event : Type :=
| LogInfo          (* logger.info: the r_minimum threshold is not met *)
| UniformPredicted (* Uniform(tunables).predict was called *)
| EngineFitted     (* GaussianProcessRegressor.fit was called *)
| EnginePredicted. (* GaussianProcessRegressor.predict was called *)

(** The global random state ([np.random]) as the stream of the numbers it
    will draw and a cursor, and the trace of the events so far. *)
Record world : Type := mkWorld {
  rng : nat -> R;
  cursor : nat;
  trace : list event
}.

Definition M (A : Type) : Type := world -> result (A * world).

Definition ret {A} (a : A) : M A := fun w => Ok (a, w).

Definition bind {A B} (m : M A) (k : A -> M B) : M B :=
  fun w => match m w with
           | Ok (a, w') => k a w'
           | Raise e => Raise e
           end.

Definition raise {A} (e : exn) : M A := fun _ => Raise e.

Declare Scope tuner_scope.
Delimit Scope tuner_scope with tuner.
Notation "x <- m ;; k" := (bind m (fun x => k))
  (at level 61, m at next level, right associativity) : tuner_scope.
Notation "m ;;; k" := (bind m (fun _ => k))
  (at level 61, right associativity) : tuner_scope.

Definition log (e : event) : M unit :=
  fun w => Ok (tt, mkWorld (rng w) (cursor w) (trace w ++ [e])).

(** [np.random.random()]. *)
Definition np_random_random : M R :=
  fun w => Ok (rng w (cursor w), mkWorld (rng w) (S (cursor w)) (trace w)).

(** Modelled from the spec: [Uniform(tunables).predict] of
    btb/tuning/uniform.py, the external fallback selector.  It returns
    "a single score per candidate, no stdev column": an (n, 1) array of
    fresh random scores, one per row of [X]. *)
Definition Uniform_predict (X : matrix) : M ndarray :=
  fun w =>
    Ok (Arr2 1 (map (fun i => [Fin (rng w i)]) (seq (cursor w) (length X))),
        mkWorld (rng w) (cursor w + length X) (trace w ++ [UniformPredicted])).

(** ** The regression engine, at its interface *)

Inductive kernel : Type :=
| DefaultKernel       (* kernel=None: the engine's own default *)
| Matern (nu : Q).

(** A [GaussianProcessRegressor]: its constructor arguments and, once
    [fit] has run, the data it was trained on. *)
Record GaussianProcessRegressor : Type := mkGPR {
  gpr_kernel : kernel;
  normalize_y : bool;
  trained_on : option (matrix * matrix)
}.

(** [GaussianProcessRegressor.fit]: the regressor keeps its configuration
    and is now trained on (X, y).  The engine's own validation of its input
    (it refuses an X and a y of different lengths, and scores that are not
    finite) belongs to the engine and is not modelled: its fit is taken to
    succeed. *)
Definition gpr_fit (g : GaussianProcessRegressor) (X y : matrix)
    : GaussianProcessRegressor :=
  mkGPR (gpr_kernel g) (normalize_y g) (Some (X, y)).

(** Modelled from the spec: [asarray2d] of btb/util.py, for which the spec
    has only the history as (X, y) pairs; by its name it presents a 1-d
    array of scores as a 2-d one, each score a row of its own (a 2-d array
    it leaves as it is). *)
Definition asarray2d (v : list num) : matrix := map (fun a => [a]) v.

(** ** The tuners *)

Inductive tuner_class : Type := GP | GPEi | GPMatern52Ei | GPEiVelocity.

(** The attributes of a tuner object; [None] is an attribute that no method
    has set yet ([self.X] and [self.y] before [fit], [self.gp] before the
    first training, [self.POU] outside [GPEiVelocity]). *)
Record tuner : Type := mkTuner {
  cls : tuner_class;
  tunables : list (num * num);
  gridding : Z;
  r_minimum : Z;
  self_X : option matrix;
  self_y : option (list num);
  gp : option GaussianProcessRegressor;
  POU : option num
}.

Definition set_gp (self : tuner) (g : GaussianProcessRegressor) : tuner :=
  mkTuner (cls self) (tunables self) (gridding self) (r_minimum self)
          (self_X self) (self_y self) (Some g) (POU self).

Definition set_POU (self : tuner) (p : num) : tuner :=
  mkTuner (cls self) (tunables self) (gridding self) (r_minimum self)
          (self_X self) (self_y self) (gp self) (Some p).

(** Modelled from the spec: [BaseTuner.fit] of btb/tuning/tuner.py, which
    "stores X, y". *)
Definition BaseTuner_fit (self : tuner) (X : matrix) (y : list num) : tuner :=
  mkTuner (cls self) (tunables self) (gridding self) (r_minimum self)
          (Some X) (Some y) (gp self) (POU self).

(** [GP.__init__], for the class [c] being constructed.  What
    [BaseTuner.__init__] (btb/tuning/tuner.py, not part of this source)
    sets besides the tunables and the gridding is not known: the attributes
    that [fit] writes are taken to be unset before the first fit, so that
    reading them raises. *)
Definition GP_init (c : tuner_class) (tunables : list (num * num))
    (gridding r_minimum : Z) : tuner :=
  mkTuner c tunables gridding r_minimum None None None None.

(** [GPMatern52Ei.__init__]; [5/2] is a true division. *)
Definition GPMatern52Ei_init (tunables : list (num * num))
    (gridding r_minimum : Z) : tuner :=
  set_gp (GP_init GPMatern52Ei tunables gridding r_minimum)
         (mkGPR (Matern (5 # 2)) true None).

Definition init (c : tuner_class) (tunables : list (num * num))
    (gridding r_minimum : Z) : tuner :=
  match c with
  | GPMatern52Ei => GPMatern52Ei_init tunables gridding r_minimum
  | _ => GP_init c tunables gridding r_minimum
  end.

Local Open Scope tuner_scope.

(** [GP.fit]. *)
Definition GP_fit (self : tuner) (X : matrix) (y : list num) : M tuner :=
  let self := BaseTuner_fit self X y in
  if (Z.of_nat (length X) <? r_minimum self)%Z then ret self
  else
    let y := asarray2d y in
    let g := mkGPR DefaultKernel true None in
    log EngineFitted ;;;
    ret (set_gp self (gpr_fit g X y)).

Definition MULTIPLIER : num := Fin (-100).
Definition N_BEST_Y : nat := 5.

(** [[top_y[i + 1] - top_y[i] for i in range(len(top_y) - 1)]]; every index
    lies inside [top_y], and [range] of a negative number is empty. *)
Definition velocities_of (top_y : list num) : list num :=
  map (fun i => nsub (nth (i + 1) top_y NaN) (nth i top_y NaN))
      (seq 0 (length top_y - 1)).

(** The value [GPEiVelocity.fit] stores in [self.POU] when there are enough
    scores. *)
Definition velocity_POU (y : list num) : num :=
  let top_y := slice_last N_BEST_Y (sorted y) in
  let velocities := velocities_of top_y in
  np_exp (nmul MULTIPLIER (np_mean velocities)).

(** [GPEiVelocity.fit]. *)
Definition GPEiVelocity_fit (self : tuner) (X : matrix) (y : list num)
    : M tuner :=
  self <- GP_fit self X y ;;
  let self := set_POU self (Fin 0) in
  if (Z.of_nat (length y) >=? r_minimum self)%Z
  then ret (set_POU self (velocity_POU y))
  else ret self.

(** [fit], as the class of the object resolves it. *)
Definition fit (self : tuner) (X : matrix) (y : list num) : M tuner :=
  match cls self with
  | GPEiVelocity => GPEiVelocity_fit self X y
  | _ => GP_fit self X y
  end.

(** ** The standard normal distribution ([scipy.stats.norm]) *)

(** [norm.pdf] on a finite argument. *)
Definition norm_pdf_R (z : R) : R := exp (- (z * z) / 2) / sqrt (2 * PI).

Lemma norm_pdf_R_continuity : continuity norm_pdf_R.
Proof.
  unfold norm_pdf_R. reg.
Qed.

Lemma norm_pdf_R_integrable (a b : R) : Riemann_integrable norm_pdf_R a b.
Proof.
  destruct (Rle_dec a b) as [Hab | Hab].
  - apply continuity_implies_RiemannInt;
      [exact Hab | intros; apply norm_pdf_R_continuity].
  - apply RiemannInt_P1, continuity_implies_RiemannInt;
      [lra | intros; apply norm_pdf_R_continuity].
Qed.

(** [norm.cdf] on a finite argument: one half plus the integral of the
    density from 0 to [z]. *)
Definition norm_cdf_R (z : R) : R :=
  1 / 2 + RiemannInt (norm_pdf_R_integrable 0 z).

(** [norm.pdf] and [norm.cdf] on doubles, with scipy's values at the
    infinities. *)
Definition norm_pdf (z : num) : num :=
  match z with
  | Fin x => Fin (norm_pdf_R x)
  | PInf | NInf => Fin 0
  | NaN => NaN
  end.

Definition norm_cdf (z : num) : num :=
  match z with
  | Fin x => Fin (norm_cdf_R x)
  | PInf => Fin 1
  | NInf => Fin 0
  | NaN => NaN
  end.

(** ** Acquisition *)

(** [GPEi.compute_ei] on one candidate. *)
Definition compute_ei (mu sigma t : num) : num :=
  let Phi := norm_cdf in
  let N := norm_pdf in
  let z := ndiv (nsub mu t) sigma in
  let ei := nmul sigma (nadd (nmul z (Phi z)) (N z)) in
  ei.

(** [GPEi.compute_ei] on the arrays of the means and of the stdevs, element
    by element. *)
Definition compute_ei_array (mu sigma : list num) (t : num) : list num :=
  map (fun ms => compute_ei (fst ms) (snd ms) t) (combine mu sigma).

(** [GP._acquire]: [predictions[:, 0]] needs two dimensions and a column. *)
Definition GP_acquire (predictions : ndarray) : result nat :=
  match predictions with
  | Arr1 _ => Raise IndexError
  | Arr2 ncols rows =>
      if (ncols =? 0)%nat then Raise IndexError
      else np_argmax (column 0 rows)
  end.

(** [GPEi._acquire]; [mu, sigma = predictions.T] unpacks only an array of
    exactly two columns. *)
Definition GPEi_acquire (self : tuner) (predictions : ndarray) : result nat :=
  if (ndim predictions <=? 1)%nat
     || ((ndim predictions =? 2)%nat
         && match predictions with
            | Arr2 ncols _ => (ncols =? 1)%nat
            | Arr1 _ => false
            end)
  then GP_acquire predictions
  else
    match predictions with
    | Arr2 2 rows =>
        let mu := column 0 rows in
        let sigma := column 1 rows in
        match self_y self with
        | None => Raise AttributeError
        | Some y =>
            match np_max y with
            | Raise e => Raise e
            | Ok y_best =>
                let ei := compute_ei_array mu sigma y_best in
                np_argmax ei
            end
        end
    | _ => Raise ValueError
    end.

(** [_acquire], as the class of the object resolves it. *)
Definition acquire (self : tuner) (predictions : ndarray) : result nat :=
  match cls self with
  | GP => GP_acquire predictions
  | _ => GPEi_acquire self predictions
  end.

(** ** Prediction *)

Section Engine.

(** [GaussianProcessRegressor.predict(X, return_std=True)]: the mean and the
    stdev the regressor predicts for each row of [X]. *)
Variable gpr_predict : GaussianProcessRegressor -> matrix -> list (num * num).

(** [GP.predict]; [np.hstack] of the two columns gives rows (mean, stdev). *)
Definition GP_predict (self : tuner) (X : matrix) : M ndarray :=
  match self_X self with
  | None => raise AttributeError
  | Some X_seen =>
      if (Z.of_nat (length X_seen) <? r_minimum self)%Z
      then log LogInfo ;;; Uniform_predict X
      else
        match gp self with
        | None => raise AttributeError
        | Some g =>
            log EnginePredicted ;;;
            ret (Arr2 2 (map (fun ms => [fst ms; snd ms]) (gpr_predict g X)))
        end
  end.

(** [GPEiVelocity.predict]. *)
Definition GPEiVelocity_predict (self : tuner) (X : matrix) : M ndarray :=
  u <- np_random_random ;;
  match POU self with
  | None => raise AttributeError
  | Some p =>
      if nltb (Fin u) p then Uniform_predict X else GP_predict self X
  end.

(** [predict], as the class of the object resolves it. *)
Definition predict (self : tuner) (X : matrix) : M ndarray :=
  match cls self with
  | GPEiVelocity => GPEiVelocity_predict self X
  | _ => GP_predict self X
  end.

End Engine.

(** ** The specification's words

    Definitions that follow the specification rather than the code, for the
    theorems that compare the two. *)

(** Ascending order. *)
Definition ascending (l : list num) : Prop := StronglySorted nle l.

(** [top] holds the [n] largest scores of [y] in ascending order (all of
    them when [y] has fewer): the ascending arrangement of [y] ends with
    it. *)
Definition top_scores (n : nat) (y top : list num) : Prop :=
  exists rest,
    Permutation y (rest ++ top) /\ ascending (rest ++ top) /\
    length top = Nat.min n (length y).

(** The differences between adjacent elements ("velocities"). *)
Fixpoint consecutive_differences (l : list num) : list num :=
  match l with
  | a :: (b :: _) as tl => nsub b a :: consecutive_differences tl
  | _ => []
  end.

(** The closed form of the expected improvement, on real numbers: [d] is
    the mean minus the best score so far and [s] the stdev. *)
Definition ei_R (d s : R) : R :=
  s * (d / s * norm_cdf_R (d / s) + norm_pdf_R (d / s)).

(** The POU that a fit stores, when it returns. *)
Definition fitted_POU (r : result (tuner * world)) : option num :=
  match r with
  | Ok (self, _) => POU self
  | Raise _ => None
  end.

(** ** Inputs of the scenarios *)

(** A world to run the examples in: every draw is 0, nothing logged yet. *)
Definition w0 : world := mkWorld (fun _ => 0) 0 [].

(** The two score lists of the velocity scenario, and five configurations
    to go with them. *)
Definition y_scenario_1 : list num :=
  [Fin 0.10; Fin 0.12; Fin 0.50; Fin 0.51; Fin 0.90].

Definition y_scenario_2 : list num :=
  [Fin 0.10; Fin 0.50; Fin 0.51; Fin 0.89; Fin 0.90].

Definition X_scenario : matrix :=
  [[Fin 1]; [Fin 2]; [Fin 3]; [Fin 4]; [Fin 5]].

(** A tuner that trusts the surrogate from the first observation on, and a
    history of one observation. *)
Definition tuner_r1 : tuner := init GPEiVelocity [] 0 1.
Definition X_single : matrix := [[Fin 1]].
Definition y_single : list num := [Fin 0.5].

(** The scores of the first scenario as real numbers. *)
Definition ts_scenario_1 : list R := [0.10; 0.12; 0.50; 0.51; 0.90].

(** The expected improvement of the candidate [c] = (mean, stdev) when the
    best score so far is [t]: z = (mu - t) / sigma and
    EI = sigma * (z * Phi(z) + phi(z)). *)
Definition ei_of (t : R) (c : R * R) : R :=
  let mu := fst c in
  let sigma := snd c in
  let z := (mu - t) / sigma in
  sigma * (z * norm_cdf_R z + norm_pdf_R z).

(** The (n, 2) array of the predictions (mean, stdev) of [cands]. *)
Definition predictions_of (cands : list (R * R)) : ndarray :=
  Arr2 2 (map (fun c => [Fin (fst c); Fin (snd c)]) cands).

(** [t] is the maximum of [ys]. *)
Definition is_max (t : R) (ys : list R) : Prop :=
  In t ys /\ Forall (fun v => v <= t) ys.

(** The shapes of the arrays that [predict] hands to [_acquire] for [n]
    candidates: (n, 1), one score per candidate, from the fallback
    selector, and (n, 2), a mean and a stdev per candidate, from the
    regression engine. *)
Definition adapter_shape (n : nat) (p : ndarray) : Prop :=
  exists rows, length rows = n /\ (p = Arr2 1 rows \/ p = Arr2 2 rows).

(** A GPEi tuner that has seen the scores 0.1, 0.5 and 0.9, and two
    candidates (mean, stdev). *)
Definition ys_seen : list R := [0.1; 0.5; 0.9].

Definition X_seen3 : matrix := [[Fin 1]; [Fin 2]; [Fin 3]].

Definition tuner_seen : tuner :=
  mkTuner GPEi [] 0 2 (Some X_seen3) (Some (map Fin ys_seen))
          (Some (mkGPR DefaultKernel true
                       (Some (X_seen3, asarray2d (map Fin ys_seen)))))
          None.

Definition cands_example : list (R * R) := [(0.5, 0.1); (0.7, 0.2)].

(** A stand-in for the regression engine: mean 0 and stdev 1 everywhere. *)
Definition flat_engine (g : GaussianProcessRegressor) (X : matrix)
    : list (num * num) :=
  map (fun _ => (Fin 0, Fin 1)) X.

(** A history below the default threshold of two observations. *)
Definition X_one : matrix := [[Fin 1]].
Definition y_one : list num := [Fin 0.1].
Definition X_candidates : matrix := [[Fin 4]; [Fin 5]].

(** ** The computations in binary64

    The steps of [GPEiVelocity.fit] up to the argument of [np.exp], and
    [compute_ei] and the two [_acquire], on the primitive doubles of the
    kernel: every operation rounds, overflows and underflows as binary64
    does. *)
Module Binary64.

Import PrimFloat.

Fixpoint insert_sorted (x : float) (l : list float) : list float :=
  match l with
  | [] => [x]
  | h :: tl => if ltb x h then x :: l else h :: insert_sorted x tl
  end.

Definition sorted (l : list float) : list float :=
  fold_left (fun acc x => insert_sorted x acc) l [].

Definition slice_last (n : nat) (l : list float) : list float :=
  if (n =? 0)%nat then l else skipn (length l - n) l.

Definition velocities_of (top_y : list float) : list float :=
  map (fun i => sub (nth (i + 1) top_y nan) (nth i top_y nan))
      (seq 0 (length top_y - 1)).

Definition np_mean (l : list float) : float :=
  div (fold_left add l 0%float)
      (of_uint63 (Uint63.of_Z (Z.of_nat (length l)))).

(** [MULTIPLIER * np.mean(velocities)]. *)
Definition exp_argument (y : list float) : float :=
  mul (-100)%float (np_mean (velocities_of (slice_last 5 (sorted y)))).

Definition y_scenario_1 : list float := [0.10; 0.12; 0.50; 0.51; 0.90]%float.
Definition y_scenario_2 : list float := [0.10; 0.50; 0.51; 0.89; 0.90]%float.

Definition minus_20 : float := (-20)%float.




(** [np.argmax] and [np.max] of a 1-d array of doubles. *)
Fixpoint argmax_loop (mp : float) (best i : nat) (l : list float) : nat :=
  match l with
  | [] => best
  | x :: tl =>
      if is_nan mp then best
      else if leb x mp then argmax_loop mp best (S i) tl
      else argmax_loop x i (S i) tl
  end.

Definition np_argmax (l : list float) : result nat :=
  match l with
  | [] => Raise ValueError
  | x :: tl => Ok (argmax_loop x 0 1 tl)
  end.

Definition nmax (m x : float) : float :=
  if is_nan m then m else if leb x m then m else x.

Definition np_max (l : list float) : result float :=
  match l with
  | [] => Raise ValueError
  | x :: tl => Ok (fold_left nmax tl x)
  end.


(** A prediction array of doubles. *)
Inductive ndarray : Type :=
| Arr1 (v : list float)
| Arr2 (ncols : nat) (rows : list (list float)).

Definition ndim (a : ndarray) : nat :=
  match a with Arr1 _ => 1 | Arr2 _ _ => 2 end.

Definition column (j : nat) (rows : list (list float)) : list float :=
  map (fun r => nth j r nan) rows.

(** The (n, 2) array of the predictions (mean, stdev) of [cands]. *)
Definition predictions_of (cands : list (float * float)) : ndarray :=
  Arr2 2 (map (fun c => [fst c; snd c]) cands).

(** [GP._acquire]. *)
Definition GP_acquire (predictions : ndarray) : result nat :=
  match predictions with
  | Arr1 _ => Raise IndexError
  | Arr2 ncols rows =>
      if (ncols =? 0)%nat then Raise IndexError
      else np_argmax (column 0 rows)
  end.

Section Scipy.

(** [norm.cdf] and [norm.pdf] of scipy, functions from doubles to doubles
    that this development does not compute. *)
Variables Phi N : float -> float.

(** [GPEi.compute_ei] on one candidate, each operation rounded as binary64
    rounds it. *)
Definition compute_ei (mu sigma t : float) : float :=
  let z := div (sub mu t) sigma in
  let ei := mul sigma (add (mul z (Phi z)) (N z)) in
  ei.

Definition compute_ei_array (mu sigma : list float) (t : float)
    : list float :=
  map (fun ms => compute_ei (fst ms) (snd ms) t) (combine mu sigma).

(** [GPEi._acquire]; [self_y] is the attribute [self.y], the one it reads. *)
Definition GPEi_acquire (self_y : option (list float))
    (predictions : ndarray) : result nat :=
  if (ndim predictions <=? 1)%nat
     || ((ndim predictions =? 2)%nat
         && match predictions with
            | Arr2 ncols _ => (ncols =? 1)%nat
            | Arr1 _ => false
            end)
  then GP_acquire predictions
  else
    match predictions with
    | Arr2 2 rows =>
        let mu := column 0 rows in
        let sigma := column 1 rows in
        match self_y with
        | None => Raise AttributeError
        | Some y =>
            match np_max y with
            | Raise e => Raise e
            | Ok y_best =>
                let ei := compute_ei_array mu sigma y_best in
                np_argmax ei
            end
        end
    | _ => Raise ValueError
    end.

(** [_acquire], as the class [c] of the object resolves it. *)
Definition acquire (c : tuner_class) (self_y : option (list float))
    (predictions : ndarray) : result nat :=
  match c with
  | GP => GP_acquire predictions
  | _ => GPEi_acquire self_y predictions
  end.

(** The expected improvements that [GPEi._acquire] computes for [cands]
    when the best score is [t]. *)
Definition ei_computed (t : float) (cands : list (float * float))
    : list float :=
  map (fun c => compute_ei (fst c) (snd c) t) cands.

End Scipy.



(** Stand-ins for [norm.cdf] and [norm.pdf] in the examples: constant
    between the tails, scipy's values in the tails and at the infinities. *)
Definition Phi_example (z : float) : float :=
  if leb z (-40)%float then 0%float
  else if leb 40%float z then 1%float else 0.5%float.

Definition N_example (z : float) : float :=
  if leb z (-40)%float then 0%float
  else if leb 40%float z then 0%float else 0.25%float.

(** What is used of scipy at the infinities: [norm.cdf] is 1 at +inf and
    0 at -inf, [norm.pdf] is 0 at both. *)
Definition scipy_at_infinity (Phi N : float -> float) : Prop :=
  Phi infinity = 1%float /\ Phi neg_infinity = 0%float /\
  N infinity = 0%float /\ N neg_infinity = 0%float.


Definition y_best_09 : list float := [0.9]%float.

End Binary64.

(** ** A session of several fits *)


(** The value the class [c] leaves in [self.POU] after a fit on the scores
    [y], [before] being what was there. *)
Definition POU_after (c : tuner_class) (r_minimum : Z) (y : list num)
    (before : option num) : option num :=
  match c with
  | GPEiVelocity =>
      Some (if (Z.of_nat (length y) >=? r_minimum)%Z
            then velocity_POU y else Fin 0)
  | _ => before
  end.

(** The row (mean, stdev) of a candidate in a prediction array. *)
Definition row_of (c : R * R) : list num := [Fin (fst c); Fin (snd c)].


(** A history whose scores are all the same, and the same history in
    another order. *)
Definition y_plateau : list num := [Fin 0.9; Fin 0.9; Fin 0.9].
Definition ys_shuffled : list R := [0.9; 0.1; 0.5].

(** * Properties *)

(** ** Evaluating comparisons on concrete numbers *)

Ltac num_eval :=
  repeat (simpl; unfold nsub, nadd, nopp, nmul, ndiv, nltb, nleb;
          match goal with
          | |- context [Rlt_dec ?a ?b] =>
              destruct (Rlt_dec a b); [try lra | try lra]
          | |- context [Rle_dec ?a ?b] =>
              destruct (Rle_dec a b); [try lra | try lra]
          | |- context [Req_dec_T ?a ?b] =>
              destruct (Req_dec_T a b); [try lra | try lra]
          end).

(** ** The order on doubles *)

Lemma nleb_Fin (x y : R) : nleb (Fin x) (Fin y) = true <-> x <= y.
Proof.
  simpl. destruct (Rle_dec x y); split; intros; try easy; lra.
Qed.

Lemma nltb_Fin (x y : R) : nltb (Fin x) (Fin y) = true <-> x < y.
Proof.
  simpl. destruct (Rlt_dec x y); split; intros; try easy; lra.
Qed.

Lemma nle_antisym (a b : num) : nle a b -> nle b a -> a = b.
Proof.
  unfold nle. destruct a, b; simpl; try discriminate; try reflexivity.
  destruct (Rle_dec r r0), (Rle_dec r0 r); try discriminate.
  intros _ _. f_equal. lra.
Qed.

Lemma nle_refl_finite (a : num) : finite a -> nle a a.
Proof.
  destruct a; simpl; try contradiction. intros _. apply nleb_Fin. lra.
Qed.

Lemma nle_trans (a b c : num) : nle a b -> nle b c -> nle a c.
Proof.
  unfold nle. destruct a, b, c; simpl; try discriminate; try reflexivity.
  destruct (Rle_dec r r0), (Rle_dec r0 r1), (Rle_dec r r1);
    try discriminate; try reflexivity.
  lra.
Qed.

Lemma not_nltb_nle (x h : num) :
  finite x -> finite h -> nltb x h = false -> nle h x.
Proof.
  destruct x, h; simpl; try contradiction. intros _ _.
  unfold nle. simpl. destruct (Rlt_dec r r0), (Rle_dec r0 r);
    try discriminate; try reflexivity.
  lra.
Qed.

Lemma nltb_nle (x h : num) : nltb x h = true -> nle x h.
Proof.
  unfold nle. destruct x, h; simpl; try discriminate; try reflexivity.
  destruct (Rlt_dec r r0), (Rle_dec r r0); try discriminate; try reflexivity.
  lra.
Qed.

(** ** [sorted] returns the ascending permutation *)

Lemma insert_sorted_perm (x : num) (l : list num) :
  Permutation (x :: l) (insert_sorted x l).
Proof.
  induction l as [| h tl IH]; simpl.
  - apply Permutation_refl.
  - destruct (nltb x h).
    + apply Permutation_refl.
    + eapply perm_trans; [apply perm_swap | apply perm_skip, IH].
Qed.

Lemma fold_insert_perm (l acc : list num) :
  Permutation (l ++ acc) (fold_left (fun a x => insert_sorted x a) l acc).
Proof.
  revert acc. induction l as [| x tl IH]; intros acc; simpl.
  - apply Permutation_refl.
  - eapply perm_trans; [| apply IH].
    eapply perm_trans; [apply Permutation_middle |].
    apply Permutation_app_head, insert_sorted_perm.
Qed.

Lemma sorted_perm (l : list num) : Permutation l (sorted l).
Proof.
  unfold sorted. rewrite <- (app_nil_r l) at 1. apply fold_insert_perm.
Qed.

Lemma sorted_length (l : list num) : length (sorted l) = length l.
Proof.
  symmetry. apply Permutation_length, sorted_perm.
Qed.

Lemma sorted_finite (l : list num) :
  Forall finite l -> Forall finite (sorted l).
Proof.
  intros H. eapply Permutation_Forall; [apply sorted_perm | exact H].
Qed.

Lemma insert_sorted_ascending (x : num) (l : list num) :
  finite x -> Forall finite l -> ascending l -> ascending (insert_sorted x l).
Proof.
  unfold ascending. intros Hx Hl Hs.
  induction l as [| h tl IH]; simpl.
  - constructor; constructor.
  - inversion Hs as [| ? ? Htl Hh]; subst.
    inversion Hl as [| ? ? Hfh Hftl]; subst.
    destruct (nltb x h) eqn:E.
    + constructor; [exact Hs |].
      constructor; [apply nltb_nle, E |].
      eapply Forall_impl; [| exact Hh].
      intros a Ha. eapply nle_trans; [apply nltb_nle, E | exact Ha].
    + constructor; [apply IH; assumption |].
      eapply Permutation_Forall; [apply insert_sorted_perm |].
      constructor; [apply not_nltb_nle; assumption | exact Hh].
Qed.

Lemma fold_insert_ascending (l acc : list num) :
  Forall finite l -> Forall finite acc -> ascending acc ->
  ascending (fold_left (fun a x => insert_sorted x a) l acc).
Proof.
  revert acc. induction l as [| x tl IH]; intros acc Hl Hacc Hs; simpl.
  - exact Hs.
  - inversion Hl; subst. apply IH.
    + assumption.
    + eapply Permutation_Forall; [apply insert_sorted_perm |].
      constructor; assumption.
    + apply insert_sorted_ascending; assumption.
Qed.

Lemma sorted_ascending (l : list num) :
  Forall finite l -> ascending (sorted l).
Proof.
  intros H. apply fold_insert_ascending; [exact H | constructor | constructor].
Qed.

Lemma ascending_unique (l1 l2 : list num) :
  ascending l1 -> ascending l2 -> Permutation l1 l2 -> l1 = l2.
Proof.
  unfold ascending. revert l2.
  induction l1 as [| a l1 IH]; intros l2 H1 H2 HP.
  - apply Permutation_nil in HP. now subst.
  - destruct l2 as [| b l2].
    + apply Permutation_sym, Permutation_nil in HP. discriminate.
    + inversion H1 as [| ? ? H1' Ha]; subst.
      inversion H2 as [| ? ? H2' Hb]; subst.
      assert (Hab : a = b).
      { assert (Ia : In a (b :: l2))
          by (eapply Permutation_in; [exact HP | now left]).
        assert (Ib : In b (a :: l1))
          by (eapply Permutation_in; [apply Permutation_sym, HP | now left]).
        destruct Ia as [-> | Ia]; [reflexivity |].
        destruct Ib as [-> | Ib]; [reflexivity |].
        rewrite Forall_forall in Ha, Hb.
        apply nle_antisym; [apply Ha, Ib | apply Hb, Ia]. }
      subst b. f_equal. apply IH; try assumption.
      eapply Permutation_cons_inv, HP.
Qed.

Lemma slice_last_app (n : nat) (rest top : list num) :
  n <> 0%nat -> length top = Nat.min n (length (rest ++ top)) ->
  slice_last n (rest ++ top) = top.
Proof.
  intros Hn Hlen. unfold slice_last.
  destruct (Nat.eqb_spec n 0) as [E | _]; [contradiction |].
  rewrite length_app in *.
  destruct rest as [| r rest].
  - cbn [length app] in *.
    replace (0 + length top - n)%nat with 0%nat by lia. reflexivity.
  - cbn [length] in *.
    replace (S (length rest) + length top - n)%nat with (length (r :: rest))
      by (cbn [length]; lia).
    rewrite skipn_app, skipn_all, Nat.sub_diag. reflexivity.
Qed.

Lemma top_scores_slice (n : nat) (y top : list num) :
  n <> 0%nat -> Forall finite y -> top_scores n y top ->
  slice_last n (sorted y) = top.
Proof.
  intros Hn Hy (rest & HP & Hs & Hlen).
  assert (E : sorted y = rest ++ top).
  { apply ascending_unique.
    - apply sorted_ascending, Hy.
    - exact Hs.
    - eapply perm_trans; [apply Permutation_sym, sorted_perm | exact HP]. }
  rewrite E. apply slice_last_app; [exact Hn |].
  rewrite Hlen. f_equal. apply Permutation_length, HP.
Qed.

Lemma top_scores_sorted (n : nat) (y : list num) :
  n <> 0%nat -> Forall finite y ->
  top_scores n y (slice_last n (sorted y)).
Proof.
  intros Hn Hy. unfold slice_last.
  destruct (Nat.eqb_spec n 0) as [E | _]; [contradiction |].
  exists (firstn (length (sorted y) - n) (sorted y)).
  rewrite firstn_skipn. split; [apply sorted_perm |].
  split; [apply sorted_ascending, Hy |].
  rewrite length_skipn, sorted_length. lia.
Qed.

(** ** Velocities telescope *)

Lemma velocities_of_cons2 (a b : num) (tl : list num) :
  velocities_of (a :: b :: tl) = nsub b a :: velocities_of (b :: tl).
Proof.
  unfold velocities_of. cbn [length]. rewrite !Nat.sub_succ, !Nat.sub_0_r.
  cbn [seq map]. f_equal.
  rewrite <- seq_shift, map_map. apply map_ext. intros i. reflexivity.
Qed.

Lemma velocities_of_eq (l : list num) :
  velocities_of l = consecutive_differences l.
Proof.
  induction l as [| a [| b tl] IH]; try reflexivity.
  rewrite velocities_of_cons2, IH. reflexivity.
Qed.

Lemma finite_list (l : list num) :
  Forall finite l -> exists rs, l = map Fin rs.
Proof.
  induction 1 as [| a l Ha _ [rs ->]].
  - now exists [].
  - destruct a; try contradiction. now exists (r :: rs).
Qed.

Lemma map_Fin_finite (rs : list R) : Forall finite (map Fin rs).
Proof.
  induction rs; constructor; simpl; auto.
Qed.

Lemma fold_nadd_Fin (ds : list R) (s : R) :
  fold_left nadd (map Fin ds) (Fin s) = Fin (fold_left Rplus ds s).
Proof.
  revert s. induction ds as [| d ds IH]; intros s; simpl; [reflexivity |].
  apply IH.
Qed.

Lemma last_cons (a d : R) (l : list R) : last (a :: l) d = last l a.
Proof.
  revert a d. induction l as [| b l IH]; intros a d; [reflexivity |].
  change (last (a :: b :: l) d) with (last (b :: l) d).
  rewrite (IH b d), (IH b a). reflexivity.
Qed.

Lemma differences_Fin (a : R) (rs : list R) :
  exists ds,
    consecutive_differences (map Fin (a :: rs)) = map Fin ds /\
    length ds = length rs /\
    forall s, fold_left Rplus ds s = s + (last rs a - a).
Proof.
  revert a. induction rs as [| b rs IH]; intros a.
  - exists []. repeat split. intros s. simpl. ring.
  - destruct (IH b) as (ds & E & L & HS).
    exists ((b - a) :: ds). split; [| split].
    + cbn [map consecutive_differences] in *. rewrite E. reflexivity.
    + simpl. now rewrite L.
    + intros s. cbn [fold_left]. rewrite HS, last_cons. ring.
Qed.

(** The mean velocity of at least two finite scores is the distance from
    the first to the last, divided by the number of steps. *)
Lemma mean_velocity_telescopes (ts : list R) :
  (2 <= length ts)%nat ->
  np_mean (velocities_of (map Fin ts)) =
  Fin ((last ts 0 - hd 0 ts) / INR (length ts - 1)).
Proof.
  destruct ts as [| a [| b rs]]; cbn [length]; try lia. intros _.
  rewrite velocities_of_eq.
  destruct (differences_Fin a (b :: rs)) as (ds & E & L & HS).
  rewrite E. unfold np_mean, np_sum.
  rewrite fold_nadd_Fin, HS, length_map, L.
  cbn [length hd]. rewrite Nat.sub_succ, Nat.sub_0_r.
  assert (HN : INR (S (length rs)) <> 0) by (apply not_0_INR; lia).
  unfold ndiv. destruct (Req_dec_T (INR (S (length rs))) 0); [contradiction |].
  rewrite (last_cons a 0). f_equal. f_equal. ring.
Qed.

Lemma ascending_hd_le_last (ts : list R) :
  ascending (map Fin ts) -> hd 0 ts <= last ts 0.
Proof.
  destruct ts as [| a rs]; [simpl; lra |].
  intros H. inversion H as [| ? ? _ Ha]; subst.
  rewrite last_cons. cbn [hd].
  destruct rs as [| b rs]; [simpl; lra |].
  rewrite Forall_forall in Ha.
  apply nleb_Fin, Ha, in_map.
  destruct (@exists_last _ (b :: rs)) as (l' & c & E); [discriminate |].
  rewrite E, last_last. apply in_or_app. right. now left.
Qed.

Lemma ascending_skipn (n : nat) (l : list num) :
  ascending l -> ascending (skipn n l).
Proof.
  unfold ascending. revert l. induction n as [| n IH]; intros l H.
  - exact H.
  - destruct l as [| a l]; [exact H |].
    inversion H; subst. apply IH. assumption.
Qed.

Lemma ascending_slice_last (n : nat) (l : list num) :
  ascending l -> ascending (slice_last n l).
Proof.
  intros H. unfold slice_last. destruct (n =? 0)%nat; [exact H |].
  apply ascending_skipn, H.
Qed.

Lemma slice_last_finite (n : nat) (l : list num) :
  Forall finite l -> Forall finite (slice_last n l).
Proof.
  intros H. unfold slice_last. destruct (n =? 0)%nat; [exact H |].
  rewrite <- (firstn_skipn (length l - n) l) in H.
  apply Forall_app in H. apply H.
Qed.

Lemma slice_last_length (n : nat) (l : list num) :
  n <> 0%nat -> length (slice_last n l) = Nat.min n (length l).
Proof.
  intros Hn. unfold slice_last.
  destruct (Nat.eqb_spec n 0); [contradiction |].
  rewrite length_skipn. lia.
Qed.

(** What [GPEiVelocity.fit] stores for a top list of at least two finite
    scores. *)
Lemma velocity_POU_closed_form (y : list num) (ts : list R) :
  slice_last N_BEST_Y (sorted y) = map Fin ts ->
  (2 <= length ts)%nat ->
  velocity_POU y =
  Fin (exp (-100 * ((last ts 0 - hd 0 ts) / INR (length ts - 1)))).
Proof.
  intros E Hk. unfold velocity_POU. rewrite E.
  rewrite mean_velocity_telescopes by exact Hk. reflexivity.
Qed.

(** With two finite scores or more, the stored POU is a probability. *)
Lemma velocity_POU_bounds (y : list num) :
  Forall finite y -> (2 <= length y)%nat ->
  exists p, velocity_POU y = Fin p /\ 0 < p <= 1.
Proof.
  intros Hy Hlen.
  destruct (finite_list (slice_last N_BEST_Y (sorted y))) as [ts E].
  { apply slice_last_finite, sorted_finite, Hy. }
  assert (Hk : (2 <= length ts)%nat).
  { rewrite <- (length_map Fin ts), <- E, slice_last_length, sorted_length
      by (unfold N_BEST_Y; lia).
    unfold N_BEST_Y. lia. }
  rewrite (velocity_POU_closed_form y ts E Hk).
  eexists. split; [reflexivity |].
  assert (Hasc : ascending (map Fin ts)).
  { rewrite <- E. apply ascending_slice_last, sorted_ascending, Hy. }
  apply ascending_hd_le_last in Hasc.
  assert (HN : 0 < INR (length ts - 1)) by (apply lt_0_INR; lia).
  set (v := (last ts 0 - hd 0 ts) / INR (length ts - 1)).
  assert (Hv : 0 <= v).
  { unfold v. apply Rmult_le_pos; [lra |].
    apply Rlt_le, Rinv_0_lt_compat, HN. }
  split; [apply exp_pos |].
  rewrite <- exp_0. destruct (Req_dec v 0) as [-> | Hne].
  - rewrite Rmult_0_r. lra.
  - apply Rlt_le, exp_increasing. lra.
Qed.

(** ** What [fit] leaves in the tuner *)

Lemma GP_fit_returns (self : tuner) (X : matrix) (y : list num) (w : world) :
  exists self' w',
    GP_fit self X y w = Ok (self', w') /\
    cls self' = cls self /\ r_minimum self' = r_minimum self /\
    self_X self' = Some X /\ self_y self' = Some y /\
    POU self' = POU self /\ rng w' = rng w /\ cursor w' = cursor w.
Proof.
  unfold GP_fit. cbn [BaseTuner_fit r_minimum].
  destruct (Z.of_nat (length X) <? r_minimum self)%Z;
    eexists; eexists; (split; [reflexivity |]); repeat split.
Qed.

Lemma GPEiVelocity_fit_returns (self : tuner) (X : matrix) (y : list num)
    (w : world) :
  exists self' w',
    GPEiVelocity_fit self X y w = Ok (self', w') /\
    cls self' = cls self /\ r_minimum self' = r_minimum self /\
    self_X self' = Some X /\ self_y self' = Some y /\
    POU self' = Some (if (Z.of_nat (length y) >=? r_minimum self)%Z
                      then velocity_POU y else Fin 0).
Proof.
  destruct (GP_fit_returns self X y w)
    as (s1 & w1 & E & Hc & Hr & HX & Hy & _).
  unfold GPEiVelocity_fit, bind. rewrite E.
  cbn [set_POU r_minimum]. rewrite Hr.
  destruct (Z.of_nat (length y) >=? r_minimum self)%Z;
    eexists; eexists; (split; [reflexivity |]); cbn; auto.
Qed.

Lemma fitted_POU_velocity (self : tuner) (X : matrix) (y : list num)
    (w : world) :
  cls self = GPEiVelocity ->
  fitted_POU (fit self X y w) =
  Some (if (Z.of_nat (length y) >=? r_minimum self)%Z
        then velocity_POU y else Fin 0).
Proof.
  intros Hc. unfold fit. rewrite Hc.
  destruct (GPEiVelocity_fit_returns self X y w)
    as (s1 & w1 & E & _ & _ & _ & _ & HP).
  rewrite E. exact HP.
Qed.

(** ** The velocity scenario *)

Lemma sorted_scenario_1 : sorted y_scenario_1 = y_scenario_1.
Proof. unfold sorted, y_scenario_1. num_eval. reflexivity. Qed.

Lemma sorted_scenario_2 : sorted y_scenario_2 = y_scenario_2.
Proof. unfold sorted, y_scenario_2. num_eval. reflexivity. Qed.

Lemma velocity_POU_scenario_1 : velocity_POU y_scenario_1 = Fin (exp (-20)).
Proof.
  unfold velocity_POU. rewrite sorted_scenario_1.
  unfold y_scenario_1, slice_last, N_BEST_Y, velocities_of, np_mean, np_sum,
    MULTIPLIER.
  num_eval. unfold np_exp. f_equal. f_equal. lra.
Qed.

Lemma velocity_POU_scenario_2 : velocity_POU y_scenario_2 = Fin (exp (-20)).
Proof.
  unfold velocity_POU. rewrite sorted_scenario_2.
  unfold y_scenario_2, slice_last, N_BEST_Y, velocities_of, np_mean, np_sum,
    MULTIPLIER.
  num_eval. unfold np_exp. f_equal. f_equal. lra.
Qed.

(** C1, as amended: with N_BEST_Y = 5 and at least r_minimum observations,
    the POU that [GPEiVelocity.fit] computes for the scores
    [0.10, 0.12, 0.50, 0.51, 0.90] equals the POU it computes for
    [0.10, 0.50, 0.51, 0.89, 0.90]: both lists span 0.80 in four steps, so
    both POUs are exp(-100 * 0.2) = exp(-20). *)
Theorem velocity_scenario_POU_equal :
  forall (self : tuner) (X1 X2 : matrix) (w1 w2 : world),
    cls self = GPEiVelocity ->
    (r_minimum self <= 5)%Z ->
    N_BEST_Y = 5%nat /\
    fitted_POU (fit self X1 y_scenario_1 w1) = Some (Fin (exp (-20))) /\
    fitted_POU (fit self X2 y_scenario_2 w2) = Some (Fin (exp (-20))).
Proof.
  intros self X1 X2 w1 w2 Hc Hr. split; [reflexivity |].
  rewrite !fitted_POU_velocity by exact Hc.
  assert (E : (Z.of_nat 5 >=? r_minimum self)%Z = true)
    by (apply Z.geb_le; lia).
  cbn [length y_scenario_1 y_scenario_2]. rewrite E.
  rewrite velocity_POU_scenario_1, velocity_POU_scenario_2. auto.
Qed.

Lemma velocity_scenario_POU_equal_witness :
  fitted_POU (fit (init GPEiVelocity [] 0 2) X_scenario y_scenario_1 w0)
  = Some (Fin (exp (-20))) /\
  fitted_POU (fit (init GPEiVelocity [] 0 2) X_scenario y_scenario_2 w0)
  = Some (Fin (exp (-20))).
Proof.
  apply (velocity_scenario_POU_equal (init GPEiVelocity [] 0 2)
           X_scenario X_scenario w0 w0).
  - reflexivity.
  - simpl. lia.
Defined.

(** C1, as the specification states it, fails: the POU of the first list
    is not strictly less than the POU of the second. *)
Lemma velocity_scenario_POU_not_less :
  ~ (exists p1 p2,
        fitted_POU (fit (init GPEiVelocity [] 0 2) X_scenario y_scenario_1 w0)
        = Some p1 /\
        fitted_POU (fit (init GPEiVelocity [] 0 2) X_scenario y_scenario_2 w0)
        = Some p2 /\
        nlt p1 p2).
Proof.
  intros (p1 & p2 & E1 & E2 & Hlt).
  rewrite fitted_POU_velocity in E1, E2 by reflexivity.
  cbn in E1, E2.
  rewrite velocity_POU_scenario_1 in E1.
  rewrite velocity_POU_scenario_2 in E2.
  injection E1 as <-. injection E2 as <-.
  apply nltb_Fin in Hlt. lra.
Qed.

(** In binary64 too, rounding included, both score lists give [np.exp] the
    same argument, the double -20: the two POUs are the same double. *)
Lemma binary64_scenario_exp_arguments :
  Binary64.exp_argument Binary64.y_scenario_1 = Binary64.minus_20 /\
  Binary64.exp_argument Binary64.y_scenario_2 = Binary64.minus_20.
Proof. split; vm_compute; reflexivity. Qed.

(** ** The probability of uniform selection *)

(** C6: on every [GPEiVelocity.fit] call, POU = 0 when there are fewer than
    r_minimum observations; otherwise POU = exp(MULTIPLIER * v) with
    MULTIPLIER = -100 and v the mean of the consecutive differences of the
    top N_BEST_Y observed scores taken in ascending order. *)
Theorem fit_POU_formula :
  forall (self : tuner) (X : matrix) (y : list num) (w : world),
    cls self = GPEiVelocity ->
    exists self' w',
      fit self X y w = Ok (self', w') /\
      ((Z.of_nat (length y) < r_minimum self)%Z ->
       POU self' = Some (Fin 0)) /\
      ((Z.of_nat (length y) >= r_minimum self)%Z ->
       Forall finite y ->
       forall top,
         top_scores N_BEST_Y y top ->
         POU self' =
         Some (np_exp (nmul (Fin (-100))
                            (np_mean (consecutive_differences top))))).
Proof.
  intros self X y w Hc. unfold fit. rewrite Hc.
  destruct (GPEiVelocity_fit_returns self X y w)
    as (s1 & w1 & E & _ & _ & _ & _ & HP).
  exists s1, w1. split; [exact E |]. split.
  - intros Hlt. rewrite HP.
    destruct (Z.geb_spec (Z.of_nat (length y)) (r_minimum self));
      [lia | reflexivity].
  - intros Hge Hfin top Htop. rewrite HP.
    destruct (Z.geb_spec (Z.of_nat (length y)) (r_minimum self)); [| lia].
    unfold velocity_POU.
    rewrite (top_scores_slice N_BEST_Y y top) by (try discriminate; assumption).
    rewrite velocities_of_eq. reflexivity.
Qed.

Lemma fit_POU_formula_witness :
  exists self' w',
    fit (init GPEiVelocity [] 0 2) X_scenario y_scenario_1 w0
    = Ok (self', w') /\
    ((Z.of_nat (length y_scenario_1) < 2)%Z -> POU self' = Some (Fin 0)) /\
    ((Z.of_nat (length y_scenario_1) >= 2)%Z ->
     Forall finite y_scenario_1 ->
     forall top,
       top_scores N_BEST_Y y_scenario_1 top ->
       POU self' =
       Some (np_exp (nmul (Fin (-100))
                          (np_mean (consecutive_differences top))))).
Proof.
  apply (fit_POU_formula (init GPEiVelocity [] 0 2) X_scenario y_scenario_1 w0).
  reflexivity.
Defined.



Lemma velocity_POU_single (a : num) : velocity_POU [a] = NaN.
Proof.
  unfold velocity_POU, sorted, slice_last, N_BEST_Y, velocities_of, np_mean,
    np_sum, MULTIPLIER.
  cbn. destruct (Req_dec_T 0 0) as [_ | H]; [| contradiction].
  unfold inf_times.
  destruct (total_order_T 0 0) as [[H | _] | H]; try lra.
  reflexivity.
Qed.

(** C7 at its failing input: with r_minimum = 1, a fit on one observation
    stores a POU that is NaN, so that neither 0 <= POU nor POU <= 1
    holds. *)
Theorem single_observation_POU_nan :
  (1 <= r_minimum tuner_r1)%Z /\
  (Z.of_nat (length y_single) >= r_minimum tuner_r1)%Z /\
  fitted_POU (fit tuner_r1 X_single y_single w0) = Some NaN /\
  ~ nle (Fin 0) NaN /\ ~ nle NaN (Fin 1).
Proof.
  split; [simpl; lia |]. split; [simpl; lia |]. split.
  - rewrite fitted_POU_velocity by reflexivity.
    cbn [length y_single tuner_r1 init GP_init r_minimum Z.of_nat].
    replace (Z.pos (Pos.of_succ_nat 0) >=? 1)%Z with true by reflexivity.
    unfold y_single. rewrite velocity_POU_single. reflexivity.
  - unfold nle. simpl. split; discriminate.
Qed.

(** X1: with at least two finite scores, or with fewer scores than
    r_minimum, the POU that [GPEiVelocity.fit] stores lies between 0 and
    1. *)
Theorem POU_is_probability :
  forall (self : tuner) (X : matrix) (y : list num) (w : world),
    cls self = GPEiVelocity ->
    Forall finite y ->
    (2 <= length y)%nat \/ (Z.of_nat (length y) < r_minimum self)%Z ->
    exists p, fitted_POU (fit self X y w) = Some (Fin p) /\ 0 <= p <= 1.
Proof.
  intros self X y w Hc Hfin Hcase.
  rewrite fitted_POU_velocity by exact Hc.
  destruct (Z.geb_spec (Z.of_nat (length y)) (r_minimum self)) as [Hge | Hlt].
  - destruct Hcase as [H2 | Hlt]; [| lia].
    destruct (velocity_POU_bounds y Hfin H2) as (p & -> & Hp).
    exists p. split; [reflexivity | lra].
  - exists 0. split; [reflexivity | lra].
Qed.

Lemma POU_is_probability_witness :
  exists p,
    fitted_POU (fit (init GPEiVelocity [] 0 2) X_scenario y_scenario_1 w0)
    = Some (Fin p) /\ 0 <= p <= 1.
Proof.
  apply (POU_is_probability (init GPEiVelocity [] 0 2)
           X_scenario y_scenario_1 w0).
  - reflexivity.
  - repeat constructor.
  - left. simpl. lia.
Defined.

(** ** Expected improvement *)






Lemma compute_ei_finite (mu sigma t : R) :
  sigma <> 0 ->
  compute_ei (Fin mu) (Fin sigma) (Fin t) = Fin (ei_R (mu - t) sigma).
Proof.
  intros Hs. unfold compute_ei, nsub, nopp, nadd, ndiv.
  destruct (Req_dec_T sigma 0) as [E | _]; [contradiction |].
  reflexivity.
Qed.



Lemma compute_ei_sigma_zero (mu t : num) : compute_ei mu (Fin 0) t = NaN.
Proof.
  unfold compute_ei.
  assert (Hz : ndiv (nsub mu t) (Fin 0) = PInf \/
               ndiv (nsub mu t) (Fin 0) = NInf \/
               ndiv (nsub mu t) (Fin 0) = NaN).
  { destruct (nsub mu t) as [d | | |]; unfold ndiv.
    - destruct (Req_dec_T 0 0) as [_ | H]; [| contradiction].
      unfold inf_times. destruct (total_order_T d 0) as [[H | H] | H]; auto.
    - unfold inf_over. destruct (Rlt_dec 0 0); [lra | auto].
    - unfold inf_over. destruct (Rlt_dec 0 0); [lra | auto].
    - auto. }
  destruct Hz as [-> | [-> | ->]]; cbn;
    unfold inf_times;
    repeat match goal with
           | |- context [total_order_T ?a ?b] =>
               destruct (total_order_T a b) as [[? | ?] | ?]; try lra; cbn
           end;
    reflexivity.
Qed.

(** C2, as amended: for a candidate whose stdev is 0, [compute_ei] yields
    NaN, whatever the mean and the best score: z is +inf, -inf or NaN, and
    the products 0 * inf and inf * 0 are NaN. *)
Theorem compute_ei_zero_sigma_nan :
  forall (mu t : num), compute_ei mu (Fin 0) t = NaN.
Proof.
  intros mu t. apply compute_ei_sigma_zero.
Qed.

(** C2, as the specification states it, fails: with stdev 0 the expected
    improvement of a candidate is not 0. *)
Lemma compute_ei_zero_sigma_not_zero :
  compute_ei (Fin 0.5) (Fin 0) (Fin 0.9) <> Fin 0.
Proof.
  rewrite compute_ei_sigma_zero. discriminate.
Qed.

(** ** [np.argmax] and [np.max] *)

Lemma argmax_loop_bound (l : list num) (mp : num) (best i : nat) :
  (best < i)%nat -> (argmax_loop mp best i l < i + length l)%nat.
Proof.
  revert mp best i. induction l as [| x tl IH]; intros mp best i Hb.
  - simpl. lia.
  - cbn [argmax_loop length]. destruct (is_nan mp); [lia |].
    destruct (nleb x mp).
    + specialize (IH mp best (S i)). lia.
    + specialize (IH x i (S i)). lia.
Qed.

Lemma np_argmax_bound (l : list num) :
  l <> [] -> exists idx, np_argmax l = Ok idx /\ (idx < length l)%nat.
Proof.
  destruct l as [| x tl]; [contradiction |]. intros _.
  eexists. split; [reflexivity |].
  pose proof (argmax_loop_bound tl x 0 1). cbn [length]. lia.
Qed.

(** The loop invariant on finite values: [m] is the maximum of the prefix
    [pre] already seen and [best] the first index where it stands. *)
Lemma argmax_loop_max (tl pre : list R) (m : R) (best i : nat) :
  i = length pre ->
  (best < i)%nat ->
  nth best pre 0 = m ->
  Forall (fun v => v <= m) pre ->
  (forall j, (j < best)%nat -> nth j pre 0 < m) ->
  let l := pre ++ tl in
  let r := argmax_loop (Fin m) best i (map Fin tl) in
  (r < length l)%nat /\
  (forall j, (j < length l)%nat -> nth j l 0 <= nth r l 0) /\
  (forall j, (j < r)%nat -> nth j l 0 < nth r l 0).
Proof.
  revert pre m best i.
  induction tl as [| x tl IH]; intros pre m best i Hi Hb Hm Hall Hfirst l r.
  - subst l r. cbn [map argmax_loop]. rewrite app_nil_r. subst i.
    rewrite Hm. split; [exact Hb |]. split; [| exact Hfirst].
    intros j Hj. rewrite Forall_forall in Hall. apply Hall, nth_In, Hj.
  - subst l r. cbn [map argmax_loop is_nan].
    replace (pre ++ x :: tl) with ((pre ++ [x]) ++ tl)
      by (rewrite <- app_assoc; reflexivity).
    destruct (nleb (Fin x) (Fin m)) eqn:E.
    + apply nleb_Fin in E. apply IH.
      * rewrite length_app. simpl. lia.
      * lia.
      * rewrite app_nth1 by lia. exact Hm.
      * apply Forall_app. split; [exact Hall | constructor; [exact E | constructor]].
      * intros j Hj. rewrite app_nth1 by lia. apply Hfirst, Hj.
    + assert (Hx : m < x).
      { destruct (Rle_dec x m) as [H | H].
        - apply nleb_Fin in H. congruence.
        - lra. }
      apply IH.
      * rewrite length_app. simpl. lia.
      * lia.
      * subst i. rewrite app_nth2, Nat.sub_diag by lia. reflexivity.
      * apply Forall_app. split.
        -- eapply Forall_impl; [| exact Hall]. intros v Hv. simpl in Hv. lra.
        -- constructor; [lra | constructor].
      * intros j Hj. rewrite app_nth1 by lia.
        rewrite Forall_forall in Hall.
        assert (nth j pre 0 <= m) by (apply Hall, nth_In; lia). lra.
Qed.

(** On finite values [np.argmax] returns the first index of the maximum. *)
Lemma np_argmax_finite (es : list R) :
  es <> [] ->
  exists idx,
    np_argmax (map Fin es) = Ok idx /\
    (idx < length es)%nat /\
    (forall j, (j < length es)%nat -> nth j es 0 <= nth idx es 0) /\
    (forall j, (j < idx)%nat -> nth j es 0 < nth idx es 0).
Proof.
  destruct es as [| e es]; [contradiction |]. intros _.
  eexists. split; [reflexivity |].
  apply (argmax_loop_max es [e] e 0 1); auto.
  - constructor; [lra | constructor].
  - intros j Hj. lia.
Qed.

Lemma nmax_Fin (m x : R) : nmax (Fin m) (Fin x) = Fin (Rmax m x).
Proof.
  unfold nmax. cbn [is_nan]. unfold Rmax.
  destruct (nleb (Fin x) (Fin m)) eqn:E; destruct (Rle_dec m x) as [H | H];
    try reflexivity.
  - apply nleb_Fin in E. f_equal. lra.
  - destruct (Rle_dec x m) as [H' | H']; [| lra].
    apply nleb_Fin in H'. congruence.
Qed.

Lemma fold_nmax_Fin (tl : list R) (a : R) :
  fold_left nmax (map Fin tl) (Fin a) = Fin (fold_left Rmax tl a).
Proof.
  revert a. induction tl as [| x tl IH]; intros a; [reflexivity |].
  cbn [map fold_left]. rewrite nmax_Fin. apply IH.
Qed.

Lemma fold_Rmax_max (tl : list R) (a : R) :
  is_max (fold_left Rmax tl a) (a :: tl).
Proof.
  unfold is_max. revert a. induction tl as [| x tl IH]; intros a.
  - simpl. split; [now left | constructor; [lra | constructor]].
  - cbn [fold_left]. destruct (IH (Rmax a x)) as [Hin Hall].
    inversion Hall as [| ? ? Hhd Htl]; subst. split.
    + destruct Hin as [Hin | Hin].
      * rewrite <- Hin. unfold Rmax. destruct (Rle_dec a x); simpl; auto.
      * right. right. exact Hin.
    + pose proof (Rmax_l a x). pose proof (Rmax_r a x).
      constructor; [lra |]. constructor; [lra | exact Htl].
Qed.

Lemma np_max_finite (ys : list R) :
  ys <> [] -> exists t, np_max (map Fin ys) = Ok (Fin t) /\ is_max t ys.
Proof.
  destruct ys as [| a tl]; [contradiction |]. intros _.
  exists (fold_left Rmax tl a). split.
  - cbn [map np_max]. rewrite fold_nmax_Fin. reflexivity.
  - apply fold_Rmax_max.
Qed.

(** ** Selection by expected improvement *)

Lemma ei_of_ei_R (t : R) (c : R * R) : ei_of t c = ei_R (fst c - t) (snd c).
Proof. reflexivity. Qed.

Lemma compute_ei_array_finite (t : R) (cands : list (R * R)) :
  Forall (fun c => 0 < snd c) cands ->
  compute_ei_array
    (column 0 (map (fun c => [Fin (fst c); Fin (snd c)]) cands))
    (column 1 (map (fun c => [Fin (fst c); Fin (snd c)]) cands))
    (Fin t)
  = map Fin (map (ei_of t) cands).
Proof.
  unfold compute_ei_array, column.
  induction 1 as [| c cands Hc _ IH]; [reflexivity |].
  cbn [map combine fst snd nth] in *. rewrite IH. f_equal.
  apply compute_ei_finite. lra.
Qed.

(** ** The life cycle: fit, predict, select *)

Lemma fit_returns (self : tuner) (X : matrix) (y : list num) (w : world) :
  exists self' w',
    fit self X y w = Ok (self', w') /\
    cls self' = cls self /\ r_minimum self' = r_minimum self /\
    self_X self' = Some X /\ self_y self' = Some y /\
    (cls self = GPEiVelocity -> exists p, POU self' = Some p) /\
    ((Z.of_nat (length X) < r_minimum self)%Z -> gp self' = gp self) /\
    ((Z.of_nat (length X) >= r_minimum self)%Z ->
     gp self' = Some (mkGPR DefaultKernel true (Some (X, asarray2d y)))).
Proof.
  assert (HGP : exists self' w',
    GP_fit self X y w = Ok (self', w') /\
    cls self' = cls self /\ r_minimum self' = r_minimum self /\
    self_X self' = Some X /\ self_y self' = Some y /\
    ((Z.of_nat (length X) < r_minimum self)%Z -> gp self' = gp self) /\
    ((Z.of_nat (length X) >= r_minimum self)%Z ->
     gp self' = Some (mkGPR DefaultKernel true (Some (X, asarray2d y))))).
  { unfold GP_fit. cbn [BaseTuner_fit r_minimum].
    destruct (Z.ltb_spec (Z.of_nat (length X)) (r_minimum self));
      eexists; eexists; (split; [reflexivity |]); cbn;
      repeat split; intros; try reflexivity; lia. }
  destruct HGP as (s1 & w1 & E & Hc & Hr & HX & Hy & Hlt & Hge).
  unfold fit. destruct (cls self) eqn:Ec;
    try (exists s1, w1; repeat split; try assumption; discriminate).
  unfold GPEiVelocity_fit, bind. rewrite E. cbn [set_POU r_minimum].
  destruct (Z.of_nat (length y) >=? r_minimum s1)%Z;
    eexists; eexists; (split; [reflexivity |]); cbn;
    repeat split; try assumption; intros; eexists; reflexivity.
Qed.

Lemma Uniform_predict_returns (C : matrix) (w : world) :
  exists rows,
    length rows = length C /\
    Uniform_predict C w =
    Ok (Arr2 1 rows,
        mkWorld (rng w) (cursor w + length C) (trace w ++ [UniformPredicted])).
Proof.
  eexists. split; [| reflexivity].
  rewrite length_map, length_seq. reflexivity.
Qed.

Lemma column_length (j : nat) (rows : matrix) :
  length (column j rows) = length rows.
Proof. apply length_map. Qed.

Lemma compute_ei_array_length (mu sigma : list num) (t : num) :
  length mu = length sigma ->
  length (compute_ei_array mu sigma t) = length mu.
Proof.
  intros H. unfold compute_ei_array.
  rewrite length_map, length_combine. lia.
Qed.

(** [GP._acquire] on an array of one of the two shapes. *)
Lemma GP_acquire_valid (n : nat) (p : ndarray) :
  n <> 0%nat -> adapter_shape n p ->
  exists idx, GP_acquire p = Ok idx /\ (idx < n)%nat.
Proof.
  intros Hn (rows & Hlen & [-> | ->]); cbn [GP_acquire Nat.eqb];
    (destruct (np_argmax_bound (column 0 rows)) as (idx & E & Hlt);
     [ destruct rows; [simpl in Hlen; lia | discriminate]
     | rewrite column_length in Hlt; exists idx; split; [exact E | lia] ]).
Qed.

(** [GPEi._acquire] on an array of one of the two shapes, once some score
    has been observed. *)
Lemma GPEi_acquire_valid (self : tuner) (y : list num) (n : nat)
    (p : ndarray) :
  self_y self = Some y -> y <> [] ->
  n <> 0%nat -> adapter_shape n p ->
  exists idx, GPEi_acquire self p = Ok idx /\ (idx < n)%nat.
Proof.
  intros Hy Hne Hn Hp.
  destruct Hp as (rows & Hlen & [-> | ->]).
  - unfold GPEi_acquire. cbn [ndim Nat.leb Nat.eqb orb andb].
    apply GP_acquire_valid; [exact Hn |]. exists rows. auto.
  - unfold GPEi_acquire. cbn [ndim Nat.leb Nat.eqb orb andb]. rewrite Hy.
    destruct y as [| a tl]; [contradiction |]. cbn [np_max].
    set (ei := compute_ei_array _ _ _).
    assert (Hei : length ei = n).
    { unfold ei. rewrite compute_ei_array_length; rewrite !column_length;
        auto. }
    destruct (np_argmax_bound ei) as (idx & E & Hlt).
    { destruct ei; [simpl in Hei; lia | discriminate]. }
    exists idx. split; [exact E | lia].
Qed.

(** A 1-d array, which [predict] never returns, would make either
    [_acquire] raise: [GPEi._acquire] hands it to [GP._acquire], whose
    [predictions[:, 0]] needs two dimensions. *)
Lemma acquire_1d_raises (self : tuner) (v : list num) :
  acquire self (Arr1 v) = Raise IndexError.
Proof.
  unfold acquire, GPEi_acquire. destruct (cls self); reflexivity.
Qed.

Lemma acquire_valid (self : tuner) (y : list num) (n : nat) (p : ndarray) :
  self_y self = Some y -> y <> [] ->
  n <> 0%nat -> adapter_shape n p ->
  exists idx, acquire self p = Ok idx /\ (idx < n)%nat.
Proof.
  intros Hy Hne Hn Hp. unfold acquire.
  destruct (cls self);
    [apply GP_acquire_valid; assumption
    | apply (GPEi_acquire_valid self y); assumption ..].
Qed.

Section Lifecycle.

Variable gpr_predict : GaussianProcessRegressor -> matrix -> list (num * num).

(** The engine predicts one (mean, stdev) pair per candidate. *)
Hypothesis gpr_predict_length :
  forall g X, length (gpr_predict g X) = length X.

Lemma GP_predict_untrained (self : tuner) (X C : matrix) (w : world) :
  self_X self = Some X ->
  (Z.of_nat (length X) < r_minimum self)%Z ->
  GP_predict gpr_predict self C w =
  Uniform_predict C (mkWorld (rng w) (cursor w) (trace w ++ [LogInfo])).
Proof.
  intros HX Hlt. unfold GP_predict. rewrite HX.
  destruct (Z.ltb_spec (Z.of_nat (length X)) (r_minimum self)); [| lia].
  reflexivity.
Qed.

Lemma GP_predict_trained (self : tuner) (X C : matrix)
    (g : GaussianProcessRegressor) (w : world) :
  self_X self = Some X ->
  (Z.of_nat (length X) >= r_minimum self)%Z ->
  gp self = Some g ->
  GP_predict gpr_predict self C w =
  Ok (Arr2 2 (map (fun ms => [fst ms; snd ms]) (gpr_predict g C)),
      mkWorld (rng w) (cursor w) (trace w ++ [EnginePredicted])).
Proof.
  intros HX Hge Hg. unfold GP_predict. rewrite HX, Hg.
  destruct (Z.ltb_spec (Z.of_nat (length X)) (r_minimum self)); [lia |].
  reflexivity.
Qed.

Lemma GP_predict_shape (self0 self : tuner) (X : matrix) (y : list num)
    (w w1 : world) (C : matrix) (w2 : world) :
  fit self0 X y w = Ok (self, w1) ->
  exists p w3,
    GP_predict gpr_predict self C w2 = Ok (p, w3) /\
    adapter_shape (length C) p.
Proof.
  intros Hfit.
  destruct (fit_returns self0 X y w)
    as (s & w' & E & _ & Hr & HX & _ & _ & _ & Hge).
  rewrite E in Hfit. injection Hfit as <- <-.
  destruct (Z.lt_ge_cases (Z.of_nat (length X)) (r_minimum s)) as [H | H].
  - rewrite (GP_predict_untrained s X) by assumption.
    destruct (Uniform_predict_returns C
                (mkWorld (rng w2) (cursor w2) (trace w2 ++ [LogInfo])))
      as (rows & Hlen & ->).
    eexists; eexists. split; [reflexivity |]. exists rows. auto.
  - rewrite (GP_predict_trained s X C _ w2 HX ltac:(lia) (Hge ltac:(lia))).
    eexists; eexists. split; [reflexivity |].
    eexists. split; [| right; reflexivity].
    rewrite length_map. apply gpr_predict_length.
Qed.

(** C8: in a tuner of any class that a fit on at least one observation has
    left, the acquisition select returns, for every non-empty array of a
    shape the surrogate adapter can produce, an index idx with
    0 <= idx < number of candidates, without raising; and these shapes,
    (n, 1) and (n, 2), are the only ones [predict] produces. *)
Theorem select_returns_valid_index :
  forall (self0 self : tuner) (X : matrix) (y : list num) (w w1 : world),
    fit self0 X y w = Ok (self, w1) ->
    y <> [] ->
    (forall (n : nat) (p : ndarray),
        n <> 0%nat -> adapter_shape n p ->
        exists idx, acquire self p = Ok idx /\ (0 <= idx < n)%nat) /\
    (forall (C : matrix) (w2 : world),
        exists p w3,
          predict gpr_predict self C w2 = Ok (p, w3) /\
          adapter_shape (length C) p).
Proof.
  intros self0 self X y w w1 Hfit Hy.
  destruct (fit_returns self0 X y w)
    as (s & w' & E & Hc & Hr & HX & Hsy & HP & _ & _).
  pose proof Hfit as Hfit'.
  rewrite E in Hfit'. injection Hfit' as <- <-.
  split.
  - intros n p Hn Hp.
    destruct (acquire_valid s y n p Hsy Hy Hn Hp) as (idx & Ha & Hlt).
    exists idx. split; [exact Ha | lia].
  - intros C w2. unfold predict.
    destruct (cls s) eqn:Ecls;
      try (eapply GP_predict_shape; exact Hfit).
    unfold GPEiVelocity_predict, bind, np_random_random.
    destruct HP as (q & HPq); [congruence |]. rewrite HPq.
    destruct (nltb (Fin (rng w2 (cursor w2))) q).
    + destruct (Uniform_predict_returns C
                  (mkWorld (rng w2) (S (cursor w2)) (trace w2)))
        as (rows & Hlen & ->).
      eexists; eexists. split; [reflexivity |]. exists rows. auto.
    + eapply GP_predict_shape; exact Hfit.
Qed.

(** C4: for every class of tuner, after a fit whose observation count is
    below r_minimum, every predict(X) returns the prediction of the
    external uniform selector for X; the regression engine is not queried,
    and nothing is raised. *)
Theorem predict_falls_back_below_r_minimum :
  forall (self0 self : tuner) (X : matrix) (y : list num) (w w1 : world),
    fit self0 X y w = Ok (self, w1) ->
    (Z.of_nat (length X) < r_minimum self0)%Z ->
    forall (C : matrix) (w2 : world),
    exists (wu : world) (p : ndarray) (w3 : world) (evs : list event),
      predict gpr_predict self C w2 = Ok (p, w3) /\
      Uniform_predict C wu = Ok (p, w3) /\
      rng wu = rng w2 /\
      trace w3 = trace w2 ++ evs /\
      In UniformPredicted evs /\
      ~ In EnginePredicted evs.
Proof.
  intros self0 self X y w w1 Hfit Hlt C w2.
  destruct (fit_returns self0 X y w)
    as (s & w' & E & Hc & Hr & HX & Hsy & HP & _ & _).
  rewrite E in Hfit. injection Hfit as <- <-.
  rewrite <- Hr in Hlt.
  assert (HGP : forall w2',
    rng w2' = rng w2 -> trace w2' = trace w2 ->
    exists wu p w3 evs,
      GP_predict gpr_predict s C w2' = Ok (p, w3) /\
      Uniform_predict C wu = Ok (p, w3) /\
      rng wu = rng w2 /\
      trace w3 = trace w2 ++ evs /\
      In UniformPredicted evs /\
      ~ In EnginePredicted evs).
  { intros w2' Hrng Htr.
    rewrite (GP_predict_untrained s X) by assumption.
    eexists; eexists; eexists; exists [LogInfo; UniformPredicted].
    split; [reflexivity |]. split; [reflexivity |].
    split; [exact Hrng |]. split.
    - cbn. rewrite Htr, <- app_assoc. reflexivity.
    - split; [simpl; auto |].
      intros [H | [H | []]]; discriminate. }
  unfold predict. destruct (cls s) eqn:Ecls; try (apply HGP; reflexivity).
  unfold GPEiVelocity_predict, bind, np_random_random.
  destruct HP as (q & HPq); [congruence |]. rewrite HPq.
  destruct (nltb (Fin (rng w2 (cursor w2))) q).
  - eexists; eexists; eexists; exists [UniformPredicted].
    split; [reflexivity |]. split; [reflexivity |].
    split; [reflexivity |]. split; [reflexivity |].
    split; [simpl; auto |].
    intros [H | []]; discriminate.
  - apply HGP; reflexivity.
Qed.

(** C3 on the code: whatever the arguments of the constructor, a
    [GPMatern52Ei] tuner holds a Matern 5/2 regressor before [fit], and
    after a fit with at least r_minimum observations the regressor that
    [predict] consults has the engine's default kernel. *)
Theorem GPMatern52Ei_fit_drops_kernel :
  forall (tunables : list (num * num)) (gridding r : Z)
         (X : matrix) (y : list num) (w : world),
    (Z.of_nat (length X) >= r)%Z ->
    let trained := mkGPR DefaultKernel true (Some (X, asarray2d y)) in
    gp (init GPMatern52Ei tunables gridding r)
    = Some (mkGPR (Matern (5 # 2)) true None) /\
    exists self w1,
      fit (init GPMatern52Ei tunables gridding r) X y w = Ok (self, w1) /\
      gp self = Some trained /\
      gpr_kernel trained <> Matern (5 # 2) /\
      forall (C : matrix) (w2 : world),
        predict gpr_predict self C w2 =
        Ok (Arr2 2 (map (fun ms => [fst ms; snd ms]) (gpr_predict trained C)),
            mkWorld (rng w2) (cursor w2) (trace w2 ++ [EnginePredicted])).
Proof.
  intros tunables gridding r X y w Hge trained.
  split; [reflexivity |].
  destruct (fit_returns (init GPMatern52Ei tunables gridding r) X y w)
    as (s & w' & E & Hc & Hr & HX & _ & _ & _ & Hgp).
  exists s, w'. split; [exact E |].
  cbn in Hgp, Hr, Hc. specialize (Hgp Hge).
  split; [exact Hgp |]. split; [discriminate |].
  intros C w2. unfold predict. rewrite Hc.
  apply (GP_predict_trained s X); [exact HX | rewrite Hr; exact Hge | exact Hgp].
Qed.

End Lifecycle.

Lemma flat_engine_length (g : GaussianProcessRegressor) (X : matrix) :
  length (flat_engine g X) = length X.
Proof. apply length_map. Qed.

Lemma select_returns_valid_index_witness :
  exists self w1,
    fit (init GPEi [] 0 2) X_seen3 (map Fin ys_seen) w0 = Ok (self, w1) /\
    (forall (n : nat) (p : ndarray),
        n <> 0%nat -> adapter_shape n p ->
        exists idx, acquire self p = Ok idx /\ (0 <= idx < n)%nat) /\
    (forall (C : matrix) (w2 : world),
        exists p w3,
          predict flat_engine self C w2 = Ok (p, w3) /\
          adapter_shape (length C) p).
Proof.
  destruct (fit_returns (init GPEi [] 0 2) X_seen3 (map Fin ys_seen) w0)
    as (self & w1 & Hfit & _).
  exists self, w1. split; [exact Hfit |].
  apply (select_returns_valid_index flat_engine flat_engine_length
           (init GPEi [] 0 2) self X_seen3 (map Fin ys_seen) w0 w1).
  - exact Hfit.
  - discriminate.
Defined.

Lemma predict_falls_back_below_r_minimum_witness :
  exists self w1,
    fit (init GPEiVelocity [] 0 2) X_one y_one w0 = Ok (self, w1) /\
    exists wu p w3 evs,
      predict flat_engine self X_candidates w0 = Ok (p, w3) /\
      Uniform_predict X_candidates wu = Ok (p, w3) /\
      rng wu = rng w0 /\
      trace w3 = trace w0 ++ evs /\
      In UniformPredicted evs /\
      ~ In EnginePredicted evs.
Proof.
  destruct (fit_returns (init GPEiVelocity [] 0 2) X_one y_one w0)
    as (self & w1 & Hfit & _).
  exists self, w1. split; [exact Hfit |].
  apply (predict_falls_back_below_r_minimum flat_engine
           (init GPEiVelocity [] 0 2) self X_one y_one w0 w1).
  - exact Hfit.
  - simpl. lia.
Defined.

Lemma GPMatern52Ei_fit_drops_kernel_witness :
  exists self w1,
    fit (init GPMatern52Ei [] 0 2) X_seen3 (map Fin ys_seen) w0
    = Ok (self, w1) /\
    gp self = Some (mkGPR DefaultKernel true
                          (Some (X_seen3, asarray2d (map Fin ys_seen)))).
Proof.
  destruct (GPMatern52Ei_fit_drops_kernel flat_engine [] 0 2
              X_seen3 (map Fin ys_seen) w0)
    as (_ & self & w1 & Hfit & Hgp & _).
  - simpl. lia.
  - exists self, w1. split; [exact Hfit | exact Hgp].
Defined.

(** * Further properties of the code *)

(** ** What a fit does to the tuner and to the world *)

Lemma fit_effect (self : tuner) (X : matrix) (y : list num) (w : world) :
  exists self' w',
    fit self X y w = Ok (self', w') /\
    (cls self' = cls self /\ tunables self' = tunables self /\
     gridding self' = gridding self /\ r_minimum self' = r_minimum self) /\
    (self_X self' = Some X /\ self_y self' = Some y) /\
    POU self' = POU_after (cls self) (r_minimum self) y (POU self) /\
    (rng w' = rng w /\ cursor w' = cursor w) /\
    ((Z.of_nat (length X) < r_minimum self)%Z ->
     gp self' = gp self /\ trace w' = trace w) /\
    ((Z.of_nat (length X) >= r_minimum self)%Z ->
     gp self' = Some (mkGPR DefaultKernel true (Some (X, asarray2d y))) /\
     trace w' = trace w ++ [EngineFitted]).
Proof.
  assert (HGP : exists self' w',
    GP_fit self X y w = Ok (self', w') /\
    (cls self' = cls self /\ tunables self' = tunables self /\
     gridding self' = gridding self /\ r_minimum self' = r_minimum self) /\
    (self_X self' = Some X /\ self_y self' = Some y) /\
    POU self' = POU self /\
    (rng w' = rng w /\ cursor w' = cursor w) /\
    ((Z.of_nat (length X) < r_minimum self)%Z ->
     gp self' = gp self /\ trace w' = trace w) /\
    ((Z.of_nat (length X) >= r_minimum self)%Z ->
     gp self' = Some (mkGPR DefaultKernel true (Some (X, asarray2d y))) /\
     trace w' = trace w ++ [EngineFitted])).
  { unfold GP_fit. cbn [BaseTuner_fit r_minimum].
    destruct (Z.ltb_spec (Z.of_nat (length X)) (r_minimum self));
      eexists; eexists; (split; [reflexivity |]); cbn;
      repeat split; intros; try reflexivity; lia. }
  destruct HGP as (s1 & w1 & E & Hcfg & Hobs & HP & Hw & Hlt & Hge).
  unfold fit, POU_after. destruct (cls self) eqn:Ec;
    try (exists s1, w1; repeat split; try apply Hcfg; try apply Hobs;
         try apply Hw; try assumption; intros; try apply Hlt; try apply Hge;
         assumption).
  destruct Hcfg as (Hc & Ht & Hg & Hr).
  unfold GPEiVelocity_fit, bind. rewrite E. cbn [set_POU r_minimum].
  rewrite Hr.
  destruct (Z.of_nat (length y) >=? r_minimum self)%Z;
    eexists; eexists; (split; [reflexivity |]); cbn;
    repeat split; try apply Hobs; try apply Hw; try assumption;
    intros; try apply Hlt; try apply Hge; assumption.
Qed.

(** ** What [predict] and [_acquire] read of the tuner *)

Section Reads.

Variable gpr_predict : GaussianProcessRegressor -> matrix -> list (num * num).

Lemma GP_predict_reads (s s' : tuner) (C : matrix) (w : world) :
  r_minimum s = r_minimum s' ->
  self_X s = self_X s' ->
  (forall X, self_X s = Some X ->
             (Z.of_nat (length X) >= r_minimum s)%Z -> gp s = gp s') ->
  GP_predict gpr_predict s C w = GP_predict gpr_predict s' C w.
Proof.
  intros Hr HX Hgp. unfold GP_predict. rewrite <- HX, <- Hr.
  destruct (self_X s) as [X |]; [| reflexivity].
  destruct (Z.ltb_spec (Z.of_nat (length X)) (r_minimum s)); [reflexivity |].
  rewrite (Hgp X eq_refl) by lia. reflexivity.
Qed.

Lemma predict_reads (s s' : tuner) (C : matrix) (w : world) :
  cls s = cls s' ->
  r_minimum s = r_minimum s' ->
  self_X s = self_X s' ->
  POU s = POU s' ->
  (forall X, self_X s = Some X ->
             (Z.of_nat (length X) >= r_minimum s)%Z -> gp s = gp s') ->
  predict gpr_predict s C w = predict gpr_predict s' C w.
Proof.
  intros Hc Hr HX HP Hgp. unfold predict. rewrite <- Hc.
  destruct (cls s); try (apply GP_predict_reads; assumption).
  unfold GPEiVelocity_predict, bind, np_random_random. rewrite <- HP.
  destruct (POU s) as [p |]; [| reflexivity].
  destruct (nltb _ p); [reflexivity |].
  apply GP_predict_reads; assumption.
Qed.

Lemma acquire_reads (s s' : tuner) (p : ndarray) :
  cls s = cls s' -> self_y s = self_y s' -> acquire s p = acquire s' p.
Proof.
  intros Hc Hy. unfold acquire, GPEi_acquire. rewrite <- Hc, <- Hy.
  reflexivity.
Qed.

(** X3: for the classes that inherit [GP.predict], after a fit with at
    least r_minimum rows every predict(C) returns the (n, 2) array of the
    means and stdevs that the engine predicts for C with the regressor
    trained on that fit's (X, y); it queries the engine once, does not call
    the uniform selector, logs no degraded-mode notice and draws no random
    number. *)
Theorem predict_uses_trained_engine :
  forall (self0 self : tuner) (X : matrix) (y : list num) (w w1 : world),
    fit self0 X y w = Ok (self, w1) ->
    cls self0 <> GPEiVelocity ->
    (Z.of_nat (length X) >= r_minimum self0)%Z ->
    forall (C : matrix) (w2 : world),
      predict gpr_predict self C w2 =
      Ok (Arr2 2 (map (fun ms => [fst ms; snd ms])
                      (gpr_predict
                         (mkGPR DefaultKernel true (Some (X, asarray2d y))) C)),
          mkWorld (rng w2) (cursor w2) (trace w2 ++ [EnginePredicted])).
Proof.
  intros self0 self X y w w1 Hfit Hcls Hge C w2.
  destruct (fit_effect self0 X y w)
    as (s & w' & E & (Hc & _ & _ & Hr) & (HX & _) & _ & _ & _ & Hgp).
  rewrite E in Hfit. injection Hfit as <- <-.
  destruct (Hgp Hge) as (Hg & _).
  assert (EGP : GP_predict gpr_predict s C w2 =
    Ok (Arr2 2 (map (fun ms => [fst ms; snd ms])
                    (gpr_predict
                       (mkGPR DefaultKernel true (Some (X, asarray2d y))) C)),
        mkWorld (rng w2) (cursor w2) (trace w2 ++ [EnginePredicted]))).
  { unfold GP_predict. rewrite HX, Hr, Hg.
    destruct (Z.ltb_spec (Z.of_nat (length X)) (r_minimum self0)); [lia |].
    reflexivity. }
  unfold predict. rewrite Hc.
  destruct (cls self0); try exact EGP. contradiction.
Qed.

(** X4: what [predict] and [_acquire] do after two fits in a row is what
    they do after the second fit alone: nothing of the first history is
    left in the behaviour of the tuner. *)
Theorem last_fit_decides :
  forall (self s1 s12 s2 : tuner) (X1 X2 : matrix) (y1 y2 : list num)
         (w wa wa' wb w' wc : world),
    fit self X1 y1 w = Ok (s1, wa) ->
    fit s1 X2 y2 wa' = Ok (s12, wb) ->
    fit self X2 y2 w' = Ok (s2, wc) ->
    (forall (C : matrix) (w2 : world),
        predict gpr_predict s12 C w2 = predict gpr_predict s2 C w2) /\
    (forall (p : ndarray), acquire s12 p = acquire s2 p).
Proof.
  intros self s1 s12 s2 X1 X2 y1 y2 w wa wa' wb w' wc H1 H12 H2.
  destruct (fit_effect self X1 y1 w)
    as (t1 & v1 & E1 & (Hc1 & _ & _ & Hr1) & _ & HP1 & _ & _ & _).
  rewrite E1 in H1. injection H1 as <- <-.
  destruct (fit_effect t1 X2 y2 wa')
    as (t12 & v12 & E12 & (Hc12 & _ & _ & Hr12) & (HX12 & Hy12) & HP12
        & _ & _ & Hg12).
  rewrite E12 in H12. injection H12 as <- <-.
  destruct (fit_effect self X2 y2 w')
    as (t2 & v2 & E2 & (Hc2 & _ & _ & Hr2) & (HX2 & Hy2) & HP2
        & _ & _ & Hg2).
  rewrite E2 in H2. injection H2 as <- <-.
  split.
  - intros C w2. apply predict_reads.
    + congruence.
    + congruence.
    + congruence.
    + rewrite HP12, HP2, Hc1, Hr1, HP1.
      unfold POU_after. destruct (cls self); reflexivity.
    + intros X HX Hge. rewrite HX12 in HX. injection HX as <-.
      rewrite Hr12 in Hge.
      destruct (Hg12 Hge) as (-> & _).
      destruct (Hg2 ltac:(lia)) as (-> & _). reflexivity.
  - intros p. apply acquire_reads; congruence.
Qed.

End Reads.

Lemma predict_uses_trained_engine_witness :
  exists self w1,
    fit (init GPEi [] 0 2) X_seen3 (map Fin ys_seen) w0 = Ok (self, w1) /\
    predict flat_engine self X_candidates w0 =
    Ok (Arr2 2 (map (fun ms => [fst ms; snd ms])
                    (flat_engine
                       (mkGPR DefaultKernel true
                              (Some (X_seen3, asarray2d (map Fin ys_seen))))
                       X_candidates)),
        mkWorld (rng w0) (cursor w0) (trace w0 ++ [EnginePredicted])).
Proof.
  destruct (fit_effect (init GPEi [] 0 2) X_seen3 (map Fin ys_seen) w0)
    as (self & w1 & Hfit & _).
  exists self, w1. split; [exact Hfit |].
  apply (predict_uses_trained_engine flat_engine
           (init GPEi [] 0 2) self X_seen3 (map Fin ys_seen) w0 w1).
  - exact Hfit.
  - discriminate.
  - simpl. lia.
Defined.

Lemma last_fit_decides_witness :
  exists s12 s2,
    (forall (C : matrix) (w2 : world),
        predict flat_engine s12 C w2 = predict flat_engine s2 C w2) /\
    (forall (p : ndarray), acquire s12 p = acquire s2 p).
Proof.
  destruct (fit_effect (init GPEiVelocity [] 0 2) X_seen3
              (map Fin ys_seen) w0) as (s1 & wa & H1 & _).
  destruct (fit_effect s1 X_one y_one wa) as (s12 & wb & H12 & _).
  destruct (fit_effect (init GPEiVelocity [] 0 2) X_one y_one w0)
    as (s2 & wc & H2 & _).
  exists s12, s2.
  exact (last_fit_decides flat_engine _ _ _ _ _ _ _ _ _ _ _ _ _ _
           H1 H12 H2).
Defined.

(** ** The Matern regressor over a session *)





Section Matern.

Variable gpr_predict : GaussianProcessRegressor -> matrix -> list (num * num).


End Matern.

(** ** More on acquisition *)

Lemma column_0_rows (cands : list (R * R)) :
  column 0 (map row_of cands) = map Fin (map fst cands).
Proof.
  unfold column. rewrite !map_map. reflexivity.
Qed.

(** X6: [GP._acquire] on an (n, 2) array of finite predictions returns the
    first index of the highest mean, whatever the stdevs: two arrays with
    the same means get the same index. *)
Theorem GP_acquire_highest_mean :
  forall (cands : list (R * R)),
    cands <> [] ->
    exists idx,
      GP_acquire (Arr2 2 (map row_of cands)) = Ok idx /\
      (idx < length cands)%nat /\
      (forall j, (j < length cands)%nat ->
                 fst (nth j cands (0, 0)) <= fst (nth idx cands (0, 0))) /\
      (forall j, (j < idx)%nat ->
                 fst (nth j cands (0, 0)) < fst (nth idx cands (0, 0))) /\
      (forall cands',
          map fst cands' = map fst cands ->
          GP_acquire (Arr2 2 (map row_of cands')) = Ok idx).
Proof.
  intros cands Hne.
  destruct (np_argmax_finite (map fst cands)) as (idx & Ha & Hlt & Hge & Hfst).
  { destruct cands; [contradiction | discriminate]. }
  rewrite length_map in Hlt, Hge.
  assert (Hnth : forall j, nth j (map fst cands) 0 = fst (nth j cands (0, 0))).
  { intros j. apply (map_nth fst cands (0, 0) j). }
  exists idx. split; [| split; [exact Hlt | split; [| split]]].
  - cbn [GP_acquire Nat.eqb]. rewrite column_0_rows. exact Ha.
  - intros j Hj. rewrite <- !Hnth. apply Hge, Hj.
  - intros j Hj. rewrite <- !Hnth. apply Hfst, Hj.
  - intros cands' Heq. cbn [GP_acquire Nat.eqb].
    rewrite column_0_rows, Heq. exact Ha.
Qed.

Lemma GP_acquire_highest_mean_witness :
  exists idx,
    GP_acquire (Arr2 2 (map row_of cands_example)) = Ok idx /\
    (idx < length cands_example)%nat.
Proof.
  destruct (GP_acquire_highest_mean cands_example)
    as (idx & Ha & Hlt & _).
  - discriminate.
  - exists idx. split; [exact Ha | exact Hlt].
Defined.

(** X7: with no candidate at all, [_acquire] of every class raises
    ValueError, on an array of either shape. *)
Theorem acquire_no_candidate_raises :
  forall (self : tuner) (y : list num) (p : ndarray),
    self_y self = Some y -> y <> [] ->
    adapter_shape 0 p ->
    acquire self p = Raise ValueError.
Proof.
  intros self y p Hy Hne (rows & Hlen & Hp).
  destruct rows; [| discriminate]. clear Hlen.
  assert (HGP : GP_acquire p = Raise ValueError)
    by (destruct Hp as [-> | ->]; reflexivity).
  unfold acquire. destruct (cls self); try exact HGP;
    (destruct Hp as [-> | ->]; [reflexivity |];
     unfold GPEi_acquire; cbn [ndim Nat.leb Nat.eqb orb andb];
     rewrite Hy; destruct y; [contradiction | reflexivity]).
Qed.

Lemma acquire_no_candidate_raises_witness :
  acquire tuner_seen (Arr2 2 []) = Raise ValueError.
Proof.
  apply (acquire_no_candidate_raises tuner_seen (map Fin ys_seen)).
  - reflexivity.
  - discriminate.
  - exists []. split; [reflexivity | right; reflexivity].
Defined.

(** ** More on the probability of uniform selection *)

Lemma velocity_POU_top (y : list num) (ts : list R) :
  Forall finite y ->
  top_scores N_BEST_Y y (map Fin ts) ->
  (2 <= length ts)%nat ->
  velocity_POU y =
  Fin (exp (-100 * ((last ts 0 - hd 0 ts) / INR (length ts - 1)))).
Proof.
  intros Hfin Htop Hk. apply velocity_POU_closed_form; [| exact Hk].
  apply top_scores_slice; [discriminate | assumption | assumption].
Qed.

Section Exploration.

Variable gpr_predict : GaussianProcessRegressor -> matrix -> list (num * num).

(** X9: on a plateau the surrogate is never used.  When the top scores of
    a fit with at least r_minimum finite scores are all equal (the lowest
    and the highest of them coincide), the stored POU is 1, and every
    [GPEiVelocity.predict] whose draw lies below 1 returns the uniform
    selector's prediction without querying the engine. *)
Theorem plateau_always_explores :
  forall (self0 self : tuner) (X : matrix) (y : list num) (w w1 : world)
         (ts : list R),
    cls self0 = GPEiVelocity ->
    fit self0 X y w = Ok (self, w1) ->
    (Z.of_nat (length y) >= r_minimum self0)%Z ->
    Forall finite y ->
    top_scores N_BEST_Y y (map Fin ts) ->
    (2 <= length ts)%nat ->
    last ts 0 = hd 0 ts ->
    POU self = Some (Fin 1) /\
    forall (C : matrix) (w2 : world),
      rng w2 (cursor w2) < 1 ->
      predict gpr_predict self C w2 =
      Uniform_predict C (mkWorld (rng w2) (S (cursor w2)) (trace w2)).
Proof.
  intros self0 self X y w w1 ts Hc Hfit Hge Hfin Htop Hk Hflat.
  destruct (fit_effect self0 X y w)
    as (s & w' & E & (Hcs & _) & _ & HP & _).
  rewrite E in Hfit. injection Hfit as <- <-.
  assert (HP1 : POU s = Some (Fin 1)).
  { rewrite HP, Hc. unfold POU_after.
    destruct (Z.geb_spec (Z.of_nat (length y)) (r_minimum self0)); [| lia].
    rewrite (velocity_POU_top y ts) by assumption.
    rewrite Hflat. f_equal. f_equal.
    replace (-100 * ((hd 0 ts - hd 0 ts) / INR (length ts - 1))) with 0.
    - apply exp_0.
    - unfold Rdiv. ring. }
  split; [exact HP1 |].
  intros C w2 Hu. unfold predict. rewrite Hcs, Hc.
  unfold GPEiVelocity_predict, bind, np_random_random. rewrite HP1.
  destruct (nltb (Fin (rng w2 (cursor w2))) (Fin 1)) eqn:En;
    [reflexivity |].
  assert (nltb (Fin (rng w2 (cursor w2))) (Fin 1) = true)
    by (apply nltb_Fin; exact Hu).
  congruence.
Qed.

(** X10: after a fit on a single observation that passes the threshold
    (r_minimum <= 1), the stored POU is NaN and no draw is below it:
    [GPEiVelocity.predict] draws its number and then always does what
    [GP.predict] does. *)
Theorem single_observation_never_explores :
  forall (self0 self : tuner) (X : matrix) (a : num) (w w1 : world),
    cls self0 = GPEiVelocity ->
    fit self0 X [a] w = Ok (self, w1) ->
    (r_minimum self0 <= 1)%Z ->
    POU self = Some NaN /\
    forall (C : matrix) (w2 : world),
      predict gpr_predict self C w2 =
      GP_predict gpr_predict self C
                 (mkWorld (rng w2) (S (cursor w2)) (trace w2)).
Proof.
  intros self0 self X a w w1 Hc Hfit Hr.
  destruct (fit_effect self0 X [a] w)
    as (s & w' & E & (Hcs & _) & _ & HP & _).
  rewrite E in Hfit. injection Hfit as <- <-.
  assert (HPn : POU s = Some NaN).
  { rewrite HP, Hc. unfold POU_after. cbn [length].
    destruct (Z.geb_spec (Z.of_nat 1) (r_minimum self0)); [| lia].
    rewrite velocity_POU_single. reflexivity. }
  split; [exact HPn |].
  intros C w2. unfold predict. rewrite Hcs, Hc.
  unfold GPEiVelocity_predict, bind, np_random_random. rewrite HPn.
  reflexivity.
Qed.

End Exploration.

(** X12: the POU does not depend on the order of the observations: two
    finite score lists that are permutations of each other get the same
    POU. *)
Theorem POU_ignores_order :
  forall (self : tuner) (X X' : matrix) (y y' : list num) (w w' : world),
    cls self = GPEiVelocity ->
    Forall finite y ->
    Permutation y y' ->
    fitted_POU (fit self X y w) = fitted_POU (fit self X' y' w').
Proof.
  intros self X X' y y' w w' Hc Hfin Hperm.
  rewrite !fitted_POU_velocity by exact Hc.
  rewrite <- (Permutation_length Hperm).
  assert (Hfin' : Forall finite y')
    by (eapply Permutation_Forall; [exact Hperm | exact Hfin]).
  assert (Hs : sorted y = sorted y').
  { apply ascending_unique.
    - apply sorted_ascending, Hfin.
    - apply sorted_ascending, Hfin'.
    - eapply perm_trans; [apply Permutation_sym, sorted_perm |].
      eapply perm_trans; [exact Hperm | apply sorted_perm]. }
  unfold velocity_POU. rewrite Hs. reflexivity.
Qed.

Lemma sorted_plateau : sorted y_plateau = y_plateau.
Proof. unfold sorted, y_plateau. num_eval. reflexivity. Qed.

Lemma plateau_always_explores_witness :
  exists self w1,
    fit (init GPEiVelocity [] 0 2) X_seen3 y_plateau w0 = Ok (self, w1) /\
    POU self = Some (Fin 1).
Proof.
  destruct (fit_effect (init GPEiVelocity [] 0 2) X_seen3 y_plateau w0)
    as (self & w1 & Hfit & _).
  exists self, w1. split; [exact Hfit |].
  apply (plateau_always_explores flat_engine (init GPEiVelocity [] 0 2) self
           X_seen3 y_plateau w0 w1 [0.9; 0.9; 0.9]).
  - reflexivity.
  - exact Hfit.
  - simpl. lia.
  - repeat constructor.
  - change (map Fin [0.9; 0.9; 0.9]) with (slice_last N_BEST_Y y_plateau).
    rewrite <- sorted_plateau at 2.
    apply top_scores_sorted; [discriminate | repeat constructor].
  - simpl. lia.
  - reflexivity.
Defined.

Lemma single_observation_never_explores_witness :
  exists self w1,
    fit tuner_r1 X_single y_single w0 = Ok (self, w1) /\
    POU self = Some NaN.
Proof.
  destruct (fit_effect tuner_r1 X_single y_single w0)
    as (self & w1 & Hfit & _).
  exists self, w1. split; [exact Hfit |].
  apply (single_observation_never_explores flat_engine tuner_r1 self
           X_single (Fin 0.5) w0 w1).
  - reflexivity.
  - exact Hfit.
  - simpl. lia.
Defined.

Lemma top_scores_scenario_1 :
  top_scores N_BEST_Y y_scenario_1 (map Fin ts_scenario_1).
Proof.
  change (map Fin ts_scenario_1) with (slice_last N_BEST_Y y_scenario_1).
  rewrite <- sorted_scenario_1 at 2.
  apply top_scores_sorted; [discriminate | repeat constructor].
Qed.

Lemma POU_ignores_order_witness :
  fitted_POU (fit (init GPEiVelocity [] 0 2) X_seen3 (map Fin ys_seen) w0)
  = fitted_POU (fit (init GPEiVelocity [] 0 2) X_seen3
                    (map Fin ys_shuffled) w0).
Proof.
  apply (POU_ignores_order (init GPEiVelocity [] 0 2) X_seen3 X_seen3
           (map Fin ys_seen) (map Fin ys_shuffled) w0 w0).
  - reflexivity.
  - repeat constructor.
  - apply Permutation_sym.
    apply (Permutation_cons_append [Fin 0.1; Fin 0.5] (Fin 0.9)).
Defined.

(** ** Scores below the top do not count *)

Lemma ascending_app_inv (l1 l2 : list num) :
  ascending (l1 ++ l2) ->
  ascending l1 /\ ascending l2 /\
  (forall a b, In a l1 -> In b l2 -> nle a b).
Proof.
  unfold ascending. induction l1 as [| x l1 IH]; intros H.
  - split; [constructor |]. split; [exact H |]. intros a b [].
  - cbn [app] in H. inversion H as [| ? ? Htl Hx]; subst.
    destruct (IH Htl) as (H1 & H2 & Hc).
    apply Forall_app in Hx. destruct Hx as (Hx1 & Hx2).
    split; [constructor; assumption |]. split; [exact H2 |].
    intros a b [<- | Ha] Hb.
    + rewrite Forall_forall in Hx2. apply Hx2, Hb.
    + apply Hc; assumption.
Qed.

Lemma ascending_app (l1 l2 : list num) :
  ascending l1 -> ascending l2 ->
  (forall a b, In a l1 -> In b l2 -> nle a b) ->
  ascending (l1 ++ l2).
Proof.
  unfold ascending. intros H1 H2 Hc.
  induction H1 as [| x l1 Htl IH Hx]; [exact H2 |].
  cbn [app]. constructor.
  - apply IH. intros a b Ha Hb. apply Hc; [now right | exact Hb].
  - apply Forall_app. split; [exact Hx |].
    apply Forall_forall. intros b Hb. apply Hc; [now left | exact Hb].
Qed.

Lemma ascending_hd_least (ts : list R) (b : num) :
  ascending (map Fin ts) -> In b (map Fin ts) -> nle (Fin (hd 0 ts)) b.
Proof.
  destruct ts as [| a ts]; [intros _ [] |].
  intros H [<- | Hb].
  - apply nleb_Fin. cbn. lra.
  - inversion H as [| ? ? _ Ha]; subst.
    rewrite Forall_forall in Ha. apply Ha, Hb.
Qed.

Lemma top_scores_with_low_score (y : list num) (ts : list R) (v : R) :
  Forall finite y ->
  top_scores N_BEST_Y y (map Fin ts) ->
  length ts = N_BEST_Y ->
  v <= hd 0 ts ->
  top_scores N_BEST_Y (y ++ [Fin v]) (map Fin ts).
Proof.
  intros Hfin (rest & HP & Hasc & Hlen) Hk Hv.
  destruct (ascending_app_inv _ _ Hasc) as (Hrest & Htop & Hcross).
  assert (Hfrest : Forall finite rest).
  { assert (H : Forall finite (rest ++ map Fin ts))
      by (eapply Permutation_Forall; [exact HP | exact Hfin]).
    apply Forall_app in H. apply H. }
  exists (insert_sorted (Fin v) rest). split; [| split].
  - eapply perm_trans; [apply Permutation_sym, Permutation_cons_append |].
    eapply perm_trans; [apply perm_skip, HP |].
    apply (Permutation_app_tail (map Fin ts) (insert_sorted_perm (Fin v) rest)).
  - apply ascending_app.
    + apply insert_sorted_ascending; [exact I | exact Hfrest | exact Hrest].
    + exact Htop.
    + intros a b Ha Hb.
      apply (Permutation_in _ (Permutation_sym (insert_sorted_perm (Fin v) rest)))
        in Ha.
      destruct Ha as [<- | Ha]; [| apply Hcross; assumption].
      eapply nle_trans; [| apply (ascending_hd_least ts b Htop Hb)].
      apply nleb_Fin, Hv.
  - rewrite length_map in *. rewrite length_app. cbn [length].
    rewrite Hk in *. lia.
Qed.

(** X15: a new observation that does not beat any of the N_BEST_Y top
    scores leaves the POU as it is.  For a finite history that holds at
    least N_BEST_Y scores and passes the threshold, appending a score no
    higher than the lowest of the top scores does not change what fit
    stores. *)
Theorem POU_ignores_scores_below_top :
  forall (self : tuner) (X X' : matrix) (y : list num) (w w' : world)
         (ts : list R) (v : R),
    cls self = GPEiVelocity ->
    Forall finite y ->
    (Z.of_nat (length y) >= r_minimum self)%Z ->
    top_scores N_BEST_Y y (map Fin ts) ->
    length ts = N_BEST_Y ->
    v <= hd 0 ts ->
    fitted_POU (fit self X' (y ++ [Fin v]) w') = fitted_POU (fit self X y w).
Proof.
  intros self X X' y w w' ts v Hc Hfin Hge Htop Hk Hv.
  rewrite !fitted_POU_velocity by exact Hc.
  rewrite length_app. cbn [length].
  destruct (Z.geb_spec (Z.of_nat (length y)) (r_minimum self)); [| lia].
  destruct (Z.geb_spec (Z.of_nat (length y + 1)) (r_minimum self)); [| lia].
  f_equal. unfold velocity_POU.
  rewrite (top_scores_slice N_BEST_Y y (map Fin ts))
    by (try discriminate; assumption).
  rewrite (top_scores_slice N_BEST_Y (y ++ [Fin v]) (map Fin ts)).
  - reflexivity.
  - discriminate.
  - apply Forall_app. split; [exact Hfin | repeat constructor].
  - apply top_scores_with_low_score; assumption.
Qed.

Lemma POU_ignores_scores_below_top_witness :
  fitted_POU (fit (init GPEiVelocity [] 0 2) X_scenario
                  (y_scenario_1 ++ [Fin 0.05]) w0)
  = fitted_POU (fit (init GPEiVelocity [] 0 2) X_scenario y_scenario_1 w0).
Proof.
  apply (POU_ignores_scores_below_top (init GPEiVelocity [] 0 2)
           X_scenario X_scenario y_scenario_1 w0 w0 ts_scenario_1 0.05).
  - reflexivity.
  - repeat constructor.
  - simpl. lia.
  - exact top_scores_scenario_1.
  - reflexivity.
  - simpl. lra.
Defined.


(** * Properties on binary64

    The statements that rounding, overflow or underflow decide are settled
    here on the doubles themselves. *)

Module Binary64Facts.

Import PrimFloat SpecFloat FloatOps FloatAxioms.

(** ** The order of the doubles *)

Lemma SFcompare_refl (s : spec_float) :
  s <> S754_nan -> SFcompare s s = Some Eq.
Proof.
  destruct s as [b | b | | b m e]; intros H; try contradiction; try reflexivity.
  - destruct b; reflexivity.
  - cbn. destruct b; rewrite Z.compare_refl;
      change (Pos.compare_cont Eq m m) with (Pos.compare m m);
      rewrite Pos.compare_refl; reflexivity.
Qed.






Lemma is_nan_spec (x : float) :
  is_nan x = true <-> Prim2SF x = S754_nan.
Proof.
  unfold is_nan. rewrite eqb_spec. unfold SFeqb.
  destruct (Prim2SF x) as [b | b | | b m e] eqn:E;
    try (rewrite SFcompare_refl by discriminate);
    split; intros H; try discriminate; reflexivity.
Qed.


Lemma leb_nan_l (a b : float) : is_nan a = true -> leb a b = false.
Proof.
  intros H. apply is_nan_spec in H. rewrite leb_spec, H. reflexivity.
Qed.








(** ** [np.argmax] on doubles *)



(** ** [np.max] on doubles *)



(** ** Selection by expected improvement on doubles *)

Lemma compute_ei_array_cands (Phi N : float -> float) (t : float)
    (cands : list (float * float)) :
  Binary64.compute_ei_array Phi N
    (Binary64.column 0 (map (fun c => [fst c; snd c]) cands))
    (Binary64.column 1 (map (fun c => [fst c; snd c]) cands)) t
  = Binary64.ei_computed Phi N t cands.
Proof.
  unfold Binary64.compute_ei_array, Binary64.column, Binary64.ei_computed.
  induction cands as [| c cands IH]; [reflexivity |].
  cbn [map combine fst snd nth]. f_equal. exact IH.
Qed.

Lemma GPEi_acquire_two_columns (Phi N : float -> float) (c : tuner_class)
    (y : list float) (t : float) (cands : list (float * float)) :
  c <> GP ->
  Binary64.np_max y = Ok t ->
  Binary64.acquire Phi N c (Some y) (Binary64.predictions_of cands)
  = Binary64.np_argmax (Binary64.ei_computed Phi N t cands).
Proof.
  intros Hc Ht.
  assert (E : Binary64.GPEi_acquire Phi N (Some y)
                (Binary64.predictions_of cands)
              = Binary64.np_argmax (Binary64.ei_computed Phi N t cands)).
  { unfold Binary64.GPEi_acquire, Binary64.predictions_of.
    cbn [Binary64.ndim Nat.leb Nat.eqb orb andb].
    rewrite Ht, compute_ei_array_cands. reflexivity. }
  unfold Binary64.acquire. destruct c; [contradiction | | |]; exact E.
Qed.







(** ** Expected improvement and the stdev on doubles *)


(** ** The mean velocity on doubles *)


(** ** A candidate without uncertainty, on doubles *)

Lemma mul_nan_l (a b : float) : is_nan a = true -> is_nan (mul a b) = true.
Proof.
  intros H. apply is_nan_spec in H. apply is_nan_spec.
  rewrite mul_spec, H. reflexivity.
Qed.

Lemma mul_nan_r (a b : float) : is_nan b = true -> is_nan (mul a b) = true.
Proof.
  intros H. apply is_nan_spec in H. apply is_nan_spec.
  rewrite mul_spec, H. destruct (Prim2SF a); reflexivity.
Qed.

Lemma add_nan_l (a b : float) : is_nan a = true -> is_nan (add a b) = true.
Proof.
  intros H. apply is_nan_spec in H. apply is_nan_spec.
  rewrite add_spec, H. reflexivity.
Qed.

Lemma eqb_zero_spec (sigma : float) :
  eqb sigma 0 = true -> exists s, Prim2SF sigma = S754_zero s.
Proof.
  rewrite eqb_spec. replace (Prim2SF 0) with (S754_zero false) by reflexivity.
  unfold SFeqb. destruct (Prim2SF sigma) as [s | s | | s m e]; cbn;
    try discriminate.
  - intros _. now exists s.
  - destruct s; discriminate.
  - destruct s; discriminate.
Qed.

(** A division by a zero gives an infinity or NaN. *)
Lemma div_by_zero (d sigma : float) :
  eqb sigma 0 = true ->
  div d sigma = infinity \/ div d sigma = neg_infinity \/
  is_nan (div d sigma) = true.
Proof.
  intros H. destruct (eqb_zero_spec sigma H) as [s Hs].
  assert (Hinf : forall b, Prim2SF (div d sigma) = S754_infinity b ->
                           div d sigma = infinity \/
                           div d sigma = neg_infinity).
  { intros b E. destruct b; [right | left]; apply Prim2SF_inj;
      rewrite E; reflexivity. }
  pose proof (div_spec d sigma) as E. rewrite Hs in E.
  unfold SF64div, SFdiv in E.
  destruct (Prim2SF d) as [b | b | | b m e].
  - right. right. apply is_nan_spec, E.
  - destruct (Hinf _ E); auto.
  - right. right. apply is_nan_spec, E.
  - destruct (Hinf _ E); auto.
Qed.

(** With scipy's values at the infinities, the expected improvement of a
    candidate whose stdev is 0 is NaN, whatever its mean and the best
    score. *)
Lemma compute_ei_zero_sigma (Phi N : float -> float) (mu sigma t : float) :
  Binary64.scipy_at_infinity Phi N ->
  eqb sigma 0 = true ->
  is_nan (Binary64.compute_ei Phi N mu sigma t) = true.
Proof.
  intros (HPp & HPn & HNp & HNn) Hs. unfold Binary64.compute_ei.
  destruct (div_by_zero (sub mu t) sigma Hs) as [E | [E | E]].
  - rewrite E, HPp, HNp.
    replace (add (mul infinity 1) 0) with infinity by reflexivity.
    destruct (eqb_zero_spec sigma Hs) as [s Hz].
    apply is_nan_spec. rewrite mul_spec, Hz. reflexivity.
  - rewrite E, HPn, HNn.
    apply mul_nan_r. reflexivity.
  - apply mul_nan_r, add_nan_l, mul_nan_l, E.
Qed.

Lemma argmax_loop_first_nan (pre : list float) (x : float)
    (rest : list float) (mp : float) (best i : nat) :
  is_nan mp = false ->
  Forall (fun v => is_nan v = false) pre ->
  is_nan x = true ->
  Binary64.argmax_loop mp best i (pre ++ x :: rest) = (i + length pre)%nat.
Proof.
  intros Hmp Hpre Hx. revert mp best i Hmp.
  induction Hpre as [| v pre Hv _ IH]; intros mp best i Hmp.
  - cbn [app Binary64.argmax_loop length]. rewrite Hmp.
    rewrite (leb_nan_l x mp Hx).
    destruct rest; cbn [Binary64.argmax_loop]; [lia | rewrite Hx; lia].
  - cbn [app Binary64.argmax_loop length]. rewrite Hmp.
    destruct (leb v mp); rewrite IH by assumption; lia.
Qed.

Lemma np_argmax_first_nan (pre : list float) (x : float)
    (rest : list float) :
  Forall (fun v => is_nan v = false) pre ->
  is_nan x = true ->
  Binary64.np_argmax (pre ++ x :: rest) = Ok (length pre).
Proof.
  intros Hpre Hx. destruct Hpre as [| v pre Hv Hpre].
  - cbn [app Binary64.np_argmax length].
    destruct rest; cbn [Binary64.argmax_loop]; [| rewrite Hx]; reflexivity.
  - cbn [app Binary64.np_argmax length].
    rewrite argmax_loop_first_nan by assumption. reflexivity.
Qed.

(** X8: on doubles, a candidate whose stdev is 0 takes the selection,
    unless the computed EI of an earlier candidate is NaN already.  With
    scipy's values of norm.cdf and norm.pdf at the infinities, when the
    candidate stands at index i and the EIs computed for the candidates
    before it are numbers, [GPEi._acquire] returns i whatever the others
    predict: its own EI is NaN, which [np.argmax] takes for the maximum. *)
Theorem zero_stdev_takes_selection :
  forall (Phi N : float -> float) (c : tuner_class) (y : list float)
         (t : float) (before : list (float * float)) (mu sigma : float)
         (after : list (float * float)),
    Binary64.scipy_at_infinity Phi N ->
    c <> GP ->
    Binary64.np_max y = Ok t ->
    Forall (fun cand =>
              is_nan (Binary64.compute_ei Phi N (fst cand) (snd cand) t)
              = false) before ->
    eqb sigma 0 = true ->
    Binary64.acquire Phi N c (Some y)
      (Binary64.predictions_of (before ++ (mu, sigma) :: after))
    = Ok (length before).
Proof.
  intros Phi N c y t before mu sigma after Hscipy Hc Ht Hbefore Hs.
  rewrite (GPEi_acquire_two_columns Phi N c y t _ Hc Ht).
  unfold Binary64.ei_computed. rewrite map_app. cbn [map fst snd].
  rewrite np_argmax_first_nan.
  - rewrite length_map. reflexivity.
  - apply Forall_map. exact Hbefore.
  - apply compute_ei_zero_sigma; assumption.
Qed.

Lemma zero_stdev_takes_selection_witness :
  Binary64.acquire Binary64.Phi_example Binary64.N_example GPEi
    (Some Binary64.y_best_09)
    (Binary64.predictions_of
       ([(0.95, 0.1)] ++ (0.2, 0) :: [(0.99, 0.3)])%float)
  = Ok 1%nat.
Proof.
  apply (zero_stdev_takes_selection Binary64.Phi_example Binary64.N_example
           GPEi Binary64.y_best_09 0.9 [(0.95, 0.1)]%float 0.2 0
           [(0.99, 0.3)]%float).
  - repeat split; reflexivity.
  - discriminate.
  - reflexivity.
  - repeat constructor.
  - reflexivity.
Defined.

End Binary64Facts.
